(** * Forward Euler integration of exponential growth

    A verification development for the notebook [1_1_forward_euler.ipynb].

    The notebook is a linear script: a few parameter cells bind the globals
    [N_0], [r], [T_total] and [delta_t]; the following cells compute
    [num_steps], allocate the array [N_t], run the explicit Euler update
    loop over it, and build the array [times].  The cells are embedded here
    as transformers of the interpreter's global namespace, in an error monad
    that carries the Python exception a cell raises.

    Numbers.  Scalars are embedded as canonical rationals [Qc]: a Python
    [int] is the integer it is, a decimal literal is the decimal number it
    spells, and [+], [*] and [/] are the exact field operations.  This is
    the real-valued reading of the arithmetic.  The rounding, the overflow
    and the special values of binary64 are not part of this model; the last
    definitions of the file compute the step count alone in IEEE binary64
    arithmetic, to compare the two on the sample scenario. *)

From Stdlib Require Import ZArith QArith Qcanon Qround Lia Lqa.
From Stdlib Require Import Reals Qreals Lra.
From Stdlib Require Import Floats.SpecFloat.
From stdpp Require Import base numbers list gmap strings.

Local Open Scope Z_scope.
Local Open Scope Qc_scope.

(** ** Exceptions and the result of a computation *)

(** The built-in exceptions the cells can raise. *)
Inductive PyError : Type :=
  | ZeroDivisionError   (* float division by zero *)
  | ValueError          (* negative dimensions are not allowed *)
  | IndexError          (* index out of bounds *)
  | NameError           (* name is not defined *)
  | TypeError           (* operand of the wrong type *)
  | OverflowError.      (* cannot convert float infinity to integer *)

Inductive Res (A : Type) : Type :=
  | Ok (a : A)
  | Raise (e : PyError).
Arguments Ok {A} a.
Arguments Raise {A} e.

Definition bind {A B : Type} (c : Res A) (k : A → Res B) : Res B :=
  match c with
  | Ok a => k a
  | Raise e => Raise e
  end.

Notation "x ←! c ; k" := (bind c (λ x, k))
  (at level 100, c at next level, right associativity,
   format "x  ←!  c ;  '/' k").

Definition fails {A : Type} (c : Res A) : Prop :=
  match c with
  | Ok _ => False
  | Raise _ => True
  end.

(** Left-to-right iteration of a fallible body over a list, as a [for]
    statement does over the items of an iterable. *)
Fixpoint for_each {S I : Type} (body : S → I → Res S) (items : list I) (s : S)
  : Res S :=
  match items with
  | [] => Ok s
  | i :: rest => s' ←! body s i; for_each body rest s'
  end.

(** ** Built-ins and numpy primitives *)

(** [int(x)] on a float: truncation toward zero. *)
Definition py_int (x : Qc) : Z :=
  Z.quot (Qnum (this x)) (Zpos (Qden (this x))).

(** [x / y], true division. *)
Definition py_truediv (x y : Qc) : Res Qc :=
  if decide (y = 0) then Raise ZeroDivisionError else Ok (x / y).

(** [range(start, stop)]. *)
Definition py_range (start stop : Z) : list Z :=
  (λ k : nat, (start + Z.of_nat k)%Z) <$> seq 0 (Z.to_nat (stop - start)).

(** [np.zeros(n)]. *)
Definition np_zeros (n : Z) : Res (list Qc) :=
  if decide (n < 0)%Z then Raise ValueError
  else Ok (replicate (Z.to_nat n) 0).

(** The position an integer index denotes in an array of length [len]:
    a negative index counts from the end, and anything outside the array
    is an [IndexError]. *)
Definition np_index (len : nat) (i : Z) : Res nat :=
  let j := if decide (i < 0)%Z then (i + Z.of_nat len)%Z else i in
  if decide (0 ≤ j < Z.of_nat len)%Z then Ok (Z.to_nat j)
  else Raise IndexError.

(** [a[i]]. *)
Definition np_getitem (a : list Qc) (i : Z) : Res Qc :=
  k ←! np_index (length a) i;
  match a !! k with
  | Some x => Ok x
  | None => Raise IndexError
  end.

(** [a[i] = v]. *)
Definition np_setitem (a : list Qc) (i : Z) (v : Qc) : Res (list Qc) :=
  k ←! np_index (length a) i;
  Ok (<[k := v]> a).

(** [np.arange(n)]: the integers [0 .. n-1], empty when [n <= 0]. *)
Definition np_arange (n : Z) : list Z := py_range 0 n.

(** [a * x] for an integer array [a] and a scalar [x]. *)
Definition np_scale (a : list Z) (x : Qc) : list Qc :=
  (λ k : Z, Qc_of_Z k * x) <$> a.

(** ** The global namespace *)

(** The values the script binds: Python integers, floats, and
    one-dimensional float arrays. *)
Inductive Value : Type :=
  | VInt (z : Z)
  | VFloat (x : Qc)
  | VArray (a : list Qc).

Abbreviation Namespace := (gmap string Value).

(** Reading a name. *)
Definition load (g : Namespace) (x : string) : Res Value :=
  match g !! x with
  | Some v => Ok v
  | None => Raise NameError
  end.

(** A value used as a scalar operand of [/], [*], [+] or stored into a
    float array: an [int] is converted to the float it denotes.  The script
    has no array in such a position; one is reported as a [TypeError]. *)
Definition as_number (v : Value) : Res Qc :=
  match v with
  | VInt z => Ok (Qc_of_Z z)
  | VFloat x => Ok x
  | VArray _ => Raise TypeError
  end.

(** A value used as a shape, a [range] bound or an index. *)
Definition as_int (v : Value) : Res Z :=
  match v with
  | VInt z => Ok z
  | _ => Raise TypeError
  end.

(** A value that is subscripted. *)
Definition as_array (v : Value) : Res (list Qc) :=
  match v with
  | VArray a => Ok a
  | _ => Raise TypeError
  end.

Definition load_number (g : Namespace) (x : string) : Res Qc :=
  v ←! load g x; as_number v.
Definition load_int (g : Namespace) (x : string) : Res Z :=
  v ←! load g x; as_int v.
Definition load_array (g : Namespace) (x : string) : Res (list Qc) :=
  v ←! load g x; as_array v.

(** ** The cells of the integrator *)

(** [num_steps = int(T_total / delta_t) + 1] *)
Definition num_steps (g : Namespace) : Res Namespace :=
  T ←! load_number g "T_total";
  dt ←! load_number g "delta_t";
  q ←! py_truediv T dt;
  Ok (<["num_steps" := VInt (py_int q + 1)]> g).

(** [N_t = np.zeros(num_steps)] followed by [N_t[0] = N_0] *)
Definition N_t (g : Namespace) : Res Namespace :=
  n ←! load_int g "num_steps";
  z ←! np_zeros n;
  let g := <["N_t" := VArray z]> g in
  v ←! load_number g "N_0";
  a ←! load_array g "N_t";
  a' ←! np_setitem a 0 v;
  Ok (<["N_t" := VArray a']> g).

(** The body of the update loop, run with the loop variable bound to [t]:
    [dN = r * delta_t * N_t[t-1]] followed by [N_t[t] = N_t[t-1] + dN]. *)
Definition euler_body (g : Namespace) (t : Z) : Res Namespace :=
  let g := <["t" := VInt t]> g in
  r ←! load_number g "r";
  dt ←! load_number g "delta_t";
  a ←! load_array g "N_t";
  i ←! load_int g "t";
  x ←! np_getitem a (i - 1);
  let g := <["dN" := VFloat (r * dt * x)]> g in
  a ←! load_array g "N_t";
  i ←! load_int g "t";
  y ←! np_getitem a (i - 1);
  dN ←! load_number g "dN";
  a ←! load_array g "N_t";
  i ←! load_int g "t";
  a' ←! np_setitem a i (y + dN);
  Ok (<["N_t" := VArray a']> g).

(** [for t in range(1, num_steps): ...] *)
Definition euler_loop (g : Namespace) : Res Namespace :=
  n ←! load_int g "num_steps";
  for_each euler_body (py_range 1 n) g.

(** [times = np.arange(num_steps) * delta_t] *)
Definition times (g : Namespace) : Res Namespace :=
  n ←! load_int g "num_steps";
  dt ←! load_number g "delta_t";
  Ok (<["times" := VArray (np_scale (np_arange n) dt)]> g).

(** The four cells in notebook order. *)
Definition integrator (g : Namespace) : Res Namespace :=
  g ←! num_steps g;
  g ←! N_t g;
  g ←! euler_loop g;
  times g.

(** The namespace the parameter cells leave behind. *)
Definition parameters (N_0 r delta_t T_total : Qc) : Namespace :=
  <["delta_t" := VFloat delta_t]>
    (<["T_total" := VFloat T_total]>
       (<["r" := VFloat r]> (<["N_0" := VFloat N_0]> ∅))).

(** The trajectory the plot draws: the points [(times[i], N_t[i])]. *)
Definition trajectory (g : Namespace) : Res (list (Qc * Qc)) :=
  ts ←! load_array g "times";
  vs ←! load_array g "N_t";
  Ok (zip ts vs).

(** The integrator as a function of its four parameters: the cells run on
    a namespace that binds nothing but the parameters. *)
Definition integrate (N_0 r delta_t T_total : Qc) : Res (list (Qc * Qc)) :=
  g ←! integrator (parameters N_0 r delta_t T_total);
  trajectory g.


(** ** The values the update loop computes *)

(** The sequence [x, x + r*dt*x, ...] of [k] successive Euler updates
    starting from [x]. *)
Fixpoint euler_seq (r dt x : Qc) (k : nat) : list Qc :=
  match k with
  | O => []
  | S k' => x :: euler_seq r dt (x + r * dt * x) k'
  end.

(** The names the integrator cells assign. *)
Definition written : list string := ["num_steps"; "N_t"; "t"; "dN"; "times"].

(** The names the integrator cells read without assigning them. *)
Definition inputs : list string := ["N_0"; "r"; "delta_t"; "T_total"].

(** The value the first cell binds to [num_steps]. *)
Definition step_count (T dt : Qc) : Z := (py_int (T / dt) + 1)%Z.

(** The integer part [floor(x)] of the specification. *)
Definition floor (x : Qc) : Z := Qfloor (this x).

(** The points the cells compute for a step count [n]. *)
Definition samples (N0 r dt : Qc) (n : Z) : list (Qc * Qc) :=
  zip (np_scale (np_arange n) dt) (euler_seq r dt N0 (Z.to_nat n)).


(** ** Shapes of a sequence of values *)

Definition strictly_increasing (l : list Qc) : Prop :=
  ∀ (i j : nat) (x y : Qc),
    (i < j)%nat → l !! i = Some x → l !! j = Some y → x < y.

Definition strictly_decreasing (l : list Qc) : Prop :=
  ∀ (i j : nat) (x y : Qc),
    (i < j)%nat → l !! i = Some x → l !! j = Some y → y < x.

Definition constant_at (c : Qc) (l : list Qc) : Prop :=
  ∀ (i : nat) (x : Qc), l !! i = Some x → x = c.

(** ** Namespaces that hold the parameters *)

(** [g] binds the four parameter names to the scalars [N0], [r], [dt]
    and [T]; it may bind any other name to anything. *)
Definition binds (g : Namespace) (N0 r dt T : Qc) : Prop :=
  load_number g "N_0" = Ok N0
  ∧ load_number g "r" = Ok r
  ∧ load_number g "delta_t" = Ok dt
  ∧ load_number g "T_total" = Ok T.

(** The cells of the integrator followed by the reading of the
    trajectory, in an arbitrary namespace. *)
Definition run (g : Namespace) : Res (list (Qc * Qc)) :=
  g' ←! integrator g; trajectory g'.

(** The names that make up the trajectory. *)
Definition outputs : list string := ["times"; "N_t"].

(** ** The analytical solution *)

(** A rational number as a real number. *)
Definition Qc2R (x : Qc) : R := Q2R (this x).

(** [solution = N_0 * np.exp(r*times)], with the real exponential. *)
Definition solution (N_0 r : Qc) (times : list Qc) : list R :=
  (λ t : Qc, (Qc2R N_0 * exp (Qc2R r * Qc2R t))%R) <$> times.

(** The numerical values of a trajectory stay within [e] of the analytical
    solution evaluated at the same times: the largest absolute difference
    over the indices is at most [e]. *)
Definition global_error_within (N_0 r : Qc) (traj : list (Qc * Qc)) (e : R)
  : Prop :=
  ∀ (i : nat) (v : Qc) (s : R),
    traj.*2 !! i = Some v → solution N_0 r (traj.*1) !! i = Some s →
    (Rabs (Qc2R v - s) <= e)%R.

(** ** The step count in binary64 arithmetic *)

(** The binary64 value of an integer. *)
Definition b64_of_Z (z : Z) : spec_float :=
  binary_normalize 53 1024 z 0 false.

(** The binary64 value of the decimal literal that spells [num / den],
    for [num] and [den] exactly representable: the correctly rounded
    quotient. *)
Definition b64_decimal (num den : Z) : spec_float :=
  SFdiv 53 1024 (b64_of_Z num) (b64_of_Z den).

(** [x / y] on floats. *)
Definition b64_truediv (x y : spec_float) : Res spec_float :=
  match y with
  | S754_zero _ => Raise ZeroDivisionError
  | _ => Ok (SFdiv 53 1024 x y)
  end.

(** [int(x)] on a float. *)
Definition b64_int (x : spec_float) : Res Z :=
  match x with
  | S754_zero _ => Ok 0%Z
  | S754_infinity _ => Raise OverflowError
  | S754_nan => Raise ValueError
  | S754_finite s m e =>
      let a := if (0 <=? e)%Z then (Z.pos m * 2 ^ e)%Z
               else Z.quot (Z.pos m) (2 ^ (- e)) in
      Ok (if s then (- a)%Z else a)
  end.

(** [int(T_total / delta_t) + 1] on floats. *)
Definition num_steps_binary64 (T_total delta_t : spec_float) : Res Z :=
  q ←! b64_truediv T_total delta_t;
  n ←! b64_int q;
  Ok (n + 1)%Z.

From Stdlib Require Qcabs.

(** ** The rate cell and the analytical curve *)

(** [r = np.log(2)/t_d]: the growth rate of a population that doubles
    every [t_d], a real number. *)
Definition growth_rate (t_d : Qc) : R := (ln 2 / Qc2R t_d)%R.

(** [solution = N_0 * np.exp(r*times)] for a real rate [r], as the rate
    cell binds it. *)
Definition solution_of_rate (N_0 : Qc) (r : R) (times : list Qc) : list R :=
  (λ t : Qc, (Qc2R N_0 * exp (r * Qc2R t))%R) <$> times.

(** ** Shapes of a sequence of values, continued *)

(** The absolute values of a sequence never grow along it. *)
Definition magnitude_nonincreasing (l : list Qc) : Prop :=
  ∀ (i : nat) (x y : Qc),
    l !! i = Some x → l !! S i = Some y → Qcabs.Qcabs y ≤ Qcabs.Qcabs x.

(** The absolute values of a sequence grow strictly along it. *)
Definition magnitude_increasing (l : list Qc) : Prop :=
  ∀ (i : nat) (x y : Qc),
    l !! i = Some x → l !! S i = Some y → Qcabs.Qcabs x < Qcabs.Qcabs y.

(** Consecutive values of a sequence are nonzero and of opposite signs. *)
Definition alternating (l : list Qc) : Prop :=
  ∀ (i : nat) (x y : Qc),
    l !! i = Some x → l !! S i = Some y →
    (0 < x ∧ y < 0) ∨ (x < 0 ∧ 0 < y).


(** * Properties *)

(** ** The error monad *)

Lemma fails_Raise {A} (c : Res A) : fails c ↔ ∃ e, c = Raise e.
Proof.
  destruct c as [a|e]; simpl; split; try done.
  - intros [e [=]].
  - eauto.
Qed.

(** ** Ranges and indices *)

Lemma py_range_nil start stop : (stop ≤ start)%Z → py_range start stop = [].
Proof.
  intros H. unfold py_range.
  replace (Z.to_nat (stop - start)) with 0%nat by lia. done.
Qed.

Lemma py_range_cons start stop :
  (start < stop)%Z → py_range start stop = start :: py_range (start + 1) stop.
Proof.
  intros H. unfold py_range.
  replace (Z.to_nat (stop - start)) with (S (Z.to_nat (stop - (start + 1))))
    by lia.
  simpl. f_equal; [lia|].
  rewrite <- fmap_S_seq, <- list_fmap_compose.
  apply list_fmap_ext. intros _ k _. simpl. lia.
Qed.

Lemma length_py_range start stop :
  length (py_range start stop) = Z.to_nat (stop - start).
Proof. unfold py_range. by rewrite length_fmap, length_seq. Qed.

Lemma lookup_py_range start stop (i : nat) :
  (start + Z.of_nat i < stop)%Z →
  py_range start stop !! i = Some (start + Z.of_nat i)%Z.
Proof.
  intros H. unfold py_range. rewrite list_lookup_fmap, lookup_seq_lt by lia.
  done.
Qed.

Lemma np_index_inside (len : nat) (i : Z) :
  (0 ≤ i < Z.of_nat len)%Z → np_index len i = Ok (Z.to_nat i).
Proof.
  intros H. unfold np_index.
  destruct (decide (i < 0)%Z) as [Hneg|_]; [lia|].
  by rewrite decide_True by lia.
Qed.

Lemma np_getitem_inside (a : list Qc) (i : nat) (x : Qc) :
  a !! i = Some x → np_getitem a (Z.of_nat i) = Ok x.
Proof.
  intros H. unfold np_getitem.
  rewrite np_index_inside by (apply lookup_lt_Some in H; lia).
  simpl. by rewrite Nat2Z.id, H.
Qed.

Lemma np_setitem_inside (a : list Qc) (i : nat) (v : Qc) :
  (i < length a)%nat → np_setitem a (Z.of_nat i) v = Ok (<[i := v]> a).
Proof.
  intros H. unfold np_setitem. rewrite np_index_inside by lia.
  simpl. by rewrite Nat2Z.id.
Qed.

Lemma np_setitem_empty (i : Z) (v : Qc) : np_setitem [] i v = Raise IndexError.
Proof.
  unfold np_setitem, np_index. simpl.
  destruct (decide (i < 0)%Z); by rewrite decide_False by lia.
Qed.

(** ** Reading the namespace *)

Lemma load_insert_eq (g : Namespace) (x : string) (v : Value) :
  load (<[x := v]> g) x = Ok v.
Proof. unfold load. by rewrite lookup_insert_eq. Qed.

Lemma load_insert_ne (g : Namespace) (x y : string) (v : Value) :
  x ≠ y → load (<[x := v]> g) y = load g y.
Proof. intros H. unfold load. by rewrite lookup_insert_ne. Qed.

Lemma load_number_insert_ne (g : Namespace) (x y : string) (v : Value) :
  x ≠ y → load_number (<[x := v]> g) y = load_number g y.
Proof. intros H. unfold load_number. by rewrite load_insert_ne. Qed.

Lemma load_number_insert_eq (g : Namespace) (x : string) (q : Qc) :
  load_number (<[x := VFloat q]> g) x = Ok q.
Proof. unfold load_number. by rewrite load_insert_eq. Qed.

Lemma load_int_insert_ne (g : Namespace) (x y : string) (v : Value) :
  x ≠ y → load_int (<[x := v]> g) y = load_int g y.
Proof. intros H. unfold load_int. by rewrite load_insert_ne. Qed.

Lemma load_int_insert_eq (g : Namespace) (x : string) (z : Z) :
  load_int (<[x := VInt z]> g) x = Ok z.
Proof. unfold load_int. by rewrite load_insert_eq. Qed.

Lemma load_array_insert_ne (g : Namespace) (x y : string) (v : Value) :
  x ≠ y → load_array (<[x := v]> g) y = load_array g y.
Proof. intros H. unfold load_array. by rewrite load_insert_ne. Qed.

Lemma load_array_insert_eq (g : Namespace) (x : string) (a : list Qc) :
  load_array (<[x := VArray a]> g) x = Ok a.
Proof. unfold load_array. by rewrite load_insert_eq. Qed.

Lemma load_array_lookup (g : Namespace) (x : string) (a : list Qc) :
  g !! x = Some (VArray a) → load_array g x = Ok a.
Proof. intros H. unfold load_array, load. by rewrite H. Qed.

Lemma load_int_lookup (g : Namespace) (x : string) (z : Z) :
  g !! x = Some (VInt z) → load_int g x = Ok z.
Proof. intros H. unfold load_int, load. by rewrite H. Qed.

(** Rewrites the reads of a namespace built by assignments, and runs the
    binds whose first computation has become a result. *)
Ltac load_step :=
  first
    [ rewrite load_number_insert_eq | rewrite load_int_insert_eq
    | rewrite load_array_insert_eq
    | rewrite load_number_insert_ne by done
    | rewrite load_int_insert_ne by done
    | rewrite load_array_insert_ne by done
    | progress cbn [bind] ].
Ltac load_simpl := repeat load_step.

(** ** The update loop *)

Section Loop.
Variables r dt : Qc.

(** One run of the loop body at [t = i + 1] over an array that holds [x]
    at index [i]. *)
Lemma euler_body_spec (g : Namespace) (a : list Qc) (i : nat) (x : Qc) :
  load_number g "r" = Ok r →
  load_number g "delta_t" = Ok dt →
  g !! "N_t" = Some (VArray a) →
  a !! i = Some x →
  (S i < length a)%nat →
  euler_body g (Z.of_nat (S i)) =
    Ok (<["N_t" := VArray (<[S i := x + r * dt * x]> a)]>
          (<["dN" := VFloat (r * dt * x)]>
             (<["t" := VInt (Z.of_nat (S i))]> g))).
Proof.
  intros Hr Hdt Ha Hx Hlen. unfold euler_body.
  assert (Hload : load_array g "N_t" = Ok a) by by apply load_array_lookup.
  assert (Hget : np_getitem a (Z.of_nat (S i) - 1) = Ok x).
  { replace (Z.of_nat (S i) - 1)%Z with (Z.of_nat i) by lia.
    by apply np_getitem_inside. }
  repeat first [load_step | rewrite Hr | rewrite Hdt | rewrite Hload
               | rewrite Hget].
  by rewrite np_setitem_inside by done.
Qed.

(** The loop over [range(j, j+m)], started on an array long enough. *)
Lemma euler_loop_inv (m : nat) :
  ∀ (j : nat) (a : list Qc) (g : Namespace),
    load_number g "r" = Ok r →
    load_number g "delta_t" = Ok dt →
    g !! "N_t" = Some (VArray a) →
    (1 ≤ j)%nat →
    (j + m ≤ length a)%nat →
    ∃ (g' : Namespace) (a' : list Qc),
      for_each euler_body (py_range (Z.of_nat j) (Z.of_nat (j + m))) g = Ok g'
      ∧ g' !! "N_t" = Some (VArray a')
      ∧ length a' = length a
      ∧ (∀ i, (i < j)%nat → a' !! i = a !! i)
      ∧ (∀ i x, (j ≤ S i < j + m)%nat → a' !! i = Some x →
                a' !! S i = Some (x + r * dt * x))
      ∧ (∀ name, name ≠ "t" → name ≠ "dN" → name ≠ "N_t" →
                 g' !! name = g !! name).
Proof.
  induction m as [|m IH]; intros j a g Hr Hdt Ha Hj Hlen.
  - rewrite py_range_nil by lia. exists g, a. simpl.
    repeat split; auto. intros; lia.
  - rewrite py_range_cons by lia. cbn [for_each].
    destruct (lookup_lt_is_Some_2 a (j - 1)) as [x Hx]; [lia|].
    destruct j as [|i]; [lia|].
    replace (S i - 1)%nat with i in Hx by lia.
    rewrite (euler_body_spec g a i x) by (auto; lia). cbn [bind].
    set (a1 := <[S i := x + r * dt * x]> a).
    set (g1 := <["N_t" := VArray a1]> _).
    destruct (IH (S (S i)) a1 g1)
      as (g' & a' & Hrun & Hg' & Hl & Hlow & Hrec & Hfr).
    { unfold g1. by rewrite !load_number_insert_ne by done. }
    { unfold g1. by rewrite !load_number_insert_ne by done. }
    { unfold g1. by rewrite lookup_insert_eq. }
    { lia. }
    { unfold a1. rewrite length_insert. lia. }
    exists g', a'.
    replace (Z.of_nat (S i) + 1)%Z with (Z.of_nat (S (S i))) by lia.
    replace (Z.of_nat (S i + S m)) with (Z.of_nat (S (S i) + m)) by lia.
    split; [exact Hrun|]. split; [exact Hg'|].
    split; [by rewrite Hl; unfold a1; rewrite length_insert|].
    split; [|split].
    + intros k Hk. rewrite Hlow by lia. unfold a1.
      by rewrite list_lookup_insert_ne by lia.
    + intros k y Hk Hy. destruct (decide (k = i)) as [->|Hne].
      * rewrite Hlow in Hy by lia. unfold a1 in Hy.
        rewrite list_lookup_insert_ne in Hy by lia.
        assert (y = x) as -> by congruence.
        rewrite Hlow by lia. unfold a1.
        by rewrite list_lookup_insert_eq by lia.
      * apply Hrec; [lia|done].
    + intros name H1 H2 H3. rewrite Hfr by done. unfold g1.
      by rewrite !lookup_insert_ne by done.
Qed.

(** An array that starts with [x] and obeys the recurrence is the Euler
    sequence. *)
Lemma euler_seq_unique (n : nat) :
  ∀ (a : list Qc) (x : Qc),
    length a = n →
    (0 < n)%nat → a !! 0%nat = Some x →
    (∀ i y, (S i < n)%nat → a !! i = Some y →
            a !! S i = Some (y + r * dt * y)) →
    a = euler_seq r dt x n.
Proof.
  induction n as [|n IH]; intros a x Hlen Hpos H0 Hrec; [lia|].
  destruct a as [|x' a]; [done|]. simpl in H0. injection H0 as ->.
  simpl. f_equal. destruct n as [|n].
  - destruct a; [done|]. simpl in Hlen. lia.
  - apply IH.
    + simpl in Hlen. lia.
    + lia.
    + apply (Hrec 0%nat x); [lia|done].
    + intros i y Hi Hy. apply (Hrec (S i) y); [lia|done].
Qed.

Lemma length_euler_seq (n : nat) (x : Qc) : length (euler_seq r dt x n) = n.
Proof.
  revert x. induction n as [|n IH]; intros x; simpl; [done|].
  by rewrite IH.
Qed.

Lemma euler_seq_head (n : nat) (x : Qc) :
  (0 < n)%nat → euler_seq r dt x n !! 0%nat = Some x.
Proof. destruct n; [lia|done]. Qed.

(** Consecutive entries of the Euler sequence obey the recurrence. *)
Lemma euler_seq_step (n : nat) :
  ∀ (x : Qc) (i : nat) (y : Qc),
    (S i < n)%nat → euler_seq r dt x n !! i = Some y →
    euler_seq r dt x n !! S i = Some (y + r * dt * y).
Proof.
  induction n as [|n IH]; intros x i y Hi Hy; [lia|].
  destruct i as [|i]; simpl in *.
  - injection Hy as <-. by apply euler_seq_head; lia.
  - apply IH; [lia|done].
Qed.

(** The closed form of the recurrence. *)
Lemma euler_seq_closed (n : nat) :
  ∀ (x : Qc) (i : nat),
    (i < n)%nat → euler_seq r dt x n !! i = Some (x * (1 + r * dt) ^ i).
Proof.
  induction n as [|n IH]; intros x i Hi; [lia|].
  destruct i as [|i]; simpl.
  - f_equal. ring.
  - rewrite IH by lia. f_equal. ring.
Qed.
End Loop.

(** ** The integrator cells as a whole *)

Section Cells.
Variables N0 r dt T : Qc.
Variable g : Namespace.

Hypothesis bound_N_0 : load_number g "N_0" = Ok N0.
Hypothesis bound_r : load_number g "r" = Ok r.
Hypothesis bound_delta_t : load_number g "delta_t" = Ok dt.
Hypothesis bound_T_total : load_number g "T_total" = Ok T.

Lemma num_steps_spec :
  dt ≠ 0 → num_steps g = Ok (<["num_steps" := VInt (step_count T dt)]> g).
Proof using bound_delta_t bound_T_total.
  intros Hdt. unfold num_steps, py_truediv.
  rewrite bound_T_total, bound_delta_t. simpl.
  by rewrite decide_False by done.
Qed.

Lemma integrator_zero_step :
  dt = 0 → integrator g = Raise ZeroDivisionError.
Proof using bound_delta_t bound_T_total.
  intros Hdt. unfold integrator, num_steps, py_truediv.
  rewrite bound_T_total, bound_delta_t. simpl.
  by rewrite decide_True by done.
Qed.

Lemma integrator_negative_count :
  dt ≠ 0 → (step_count T dt < 0)%Z → integrator g = Raise ValueError.
Proof using bound_delta_t bound_T_total.
  intros Hdt Hn. unfold integrator. rewrite num_steps_spec by done.
  unfold N_t. load_simpl. unfold np_zeros.
  by rewrite decide_True by done.
Qed.

Lemma integrator_zero_count :
  dt ≠ 0 → step_count T dt = 0%Z → integrator g = Raise IndexError.
Proof using bound_N_0 bound_delta_t bound_T_total.
  intros Hdt Hn. unfold integrator. rewrite num_steps_spec by done.
  unfold N_t. load_simpl. unfold np_zeros. rewrite Hn.
  rewrite decide_False by lia. load_simpl. rewrite bound_N_0. load_simpl.
  by rewrite np_setitem_empty.
Qed.

(** With a positive step count every cell succeeds, and the namespace
    they leave behind is the initial one with [num_steps], [N_t], [times]
    and possibly [t] and [dN] rebound. *)
Lemma integrator_spec :
  dt ≠ 0 → (0 < step_count T dt)%Z →
  ∃ g' : Namespace,
    integrator g = Ok g'
    ∧ g' !! "num_steps" = Some (VInt (step_count T dt))
    ∧ g' !! "N_t" =
        Some (VArray (euler_seq r dt N0 (Z.to_nat (step_count T dt))))
    ∧ g' !! "times" =
        Some (VArray (np_scale (np_arange (step_count T dt)) dt))
    ∧ (∀ name, name ∉ written → g' !! name = g !! name).
Proof using All.
  intros Hdt Hn. set (n := step_count T dt) in *.
  unfold integrator. rewrite num_steps_spec by done. fold n. cbn [bind].
  set (g1 := <["num_steps" := VInt n]> g).
  (* the allocation cell *)
  set (a0 := <[0%nat := N0]> (replicate (Z.to_nat n) (0 : Qc))).
  assert (HN : N_t g1 = Ok (<["N_t" := VArray a0]>
                 (<["N_t" := VArray (replicate (Z.to_nat n) 0)]> g1))).
  { unfold N_t, g1. load_simpl. unfold np_zeros.
    rewrite decide_False by lia. load_simpl. rewrite bound_N_0. load_simpl.
    rewrite (np_setitem_inside _ 0%nat); [done|].
    rewrite length_replicate. lia. }
  rewrite HN. cbn [bind]. rewrite insert_insert_eq.
  set (g2 := <["N_t" := VArray a0]> g1).
  assert (Hlen0 : length a0 = Z.to_nat n).
  { unfold a0. by rewrite length_insert, length_replicate. }
  (* the loop *)
  destruct (euler_loop_inv r dt (Z.to_nat n - 1) 1 a0 g2)
    as (g3 & a & Hrun & Ha & Hlen & Hlow & Hrec & Hfr).
  { unfold g2, g1. by rewrite !load_number_insert_ne by done. }
  { unfold g2, g1. by rewrite !load_number_insert_ne by done. }
  { unfold g2. by rewrite lookup_insert_eq. }
  { lia. }
  { lia. }
  assert (Hloop : euler_loop g2 = Ok g3).
  { unfold euler_loop, g2, g1. load_simpl. fold g1. fold g2.
    replace n with (Z.of_nat (1 + (Z.to_nat n - 1))) at 1 by lia.
    exact Hrun. }
  rewrite Hloop. cbn [bind].
  assert (Hseq : a = euler_seq r dt N0 (Z.to_nat n)).
  { apply euler_seq_unique.
    - lia.
    - lia.
    - rewrite Hlow by lia. unfold a0.
      apply list_lookup_insert_eq. rewrite length_replicate. lia.
    - intros i y Hi Hy. apply Hrec; [lia|done]. }
  (* the cell that builds the time axis *)
  assert (Hn3 : g3 !! "num_steps" = Some (VInt n)).
  { rewrite Hfr by done. unfold g2, g1.
    rewrite lookup_insert_ne by done. by rewrite lookup_insert_eq. }
  assert (Hdt3 : load_number g3 "delta_t" = Ok dt).
  { unfold load_number, load. rewrite Hfr by done. unfold g2, g1.
    rewrite !lookup_insert_ne by done. exact bound_delta_t. }
  eexists. split.
  { unfold times. rewrite (load_int_lookup _ _ _ Hn3). load_simpl.
    rewrite Hdt3. load_simpl. reflexivity. }
  split; [|split; [|split]].
  - by rewrite lookup_insert_ne by done.
  - rewrite lookup_insert_ne by done. by rewrite Ha, Hseq.
  - by rewrite lookup_insert_eq.
  - intros name Hname. unfold written in Hname.
    rewrite !not_elem_of_cons in Hname.
    destruct Hname as (H1 & H2 & H3 & H4 & H5 & _).
    rewrite lookup_insert_ne by done. rewrite Hfr by done.
    unfold g2, g1. by rewrite !lookup_insert_ne by done.
Qed.
End Cells.

(** ** Truncation and the step count *)

Lemma Qc_nonneg_num (x : Qc) : 0 ≤ x ↔ (0 ≤ Qnum (this x))%Z.
Proof.
  unfold Qcle, Qle. simpl. rewrite Z.mul_1_r. done.
Qed.

(** On a non-negative number truncation toward zero is the floor. *)
Lemma py_int_nonneg (x : Qc) : 0 ≤ x → py_int x = floor x ∧ (0 ≤ py_int x)%Z.
Proof.
  rewrite Qc_nonneg_num. intros Hx. unfold py_int, floor, Qfloor.
  destruct (this x) as [n d]. simpl in *.
  rewrite Z.quot_div_nonneg by lia. split; [done|].
  apply Z.div_pos; lia.
Qed.

(** Truncation toward zero reaches [-1] exactly on the numbers below it. *)
Lemma py_int_negative (x : Qc) : (py_int x + 1 ≤ 0)%Z ↔ x ≤ - 1.
Proof.
  unfold py_int, Qcle, Qle. simpl.
  destruct (this x) as [n d]. simpl.
  pose proof (Z.quot_rem' n (Z.pos d)) as Hqr.
  destruct (Z_lt_le_dec n 0) as [Hn|Hn].
  - pose proof (Z.rem_bound_pos_neg n (Z.pos d) ltac:(lia) ltac:(lia)). nia.
  - pose proof (Z.rem_bound_pos_pos n (Z.pos d) ltac:(lia) ltac:(lia)). nia.
Qed.

Lemma Qcdiv_nonneg (x y : Qc) : 0 ≤ x → 0 < y → 0 ≤ x / y.
Proof.
  intros Hx Hy. unfold Qcdiv. apply Qcmult_nonneg_nonneg; [done|].
  apply Qclt_le_weak. by apply Qcinv_pos.
Qed.

Lemma step_count_valid (T dt : Qc) :
  0 < dt → 0 ≤ T →
  dt ≠ 0 ∧ (0 < step_count T dt)%Z ∧ step_count T dt = (floor (T / dt) + 1)%Z.
Proof.
  intros Hdt HT. split; [by apply not_eq_sym, Qclt_not_eq|].
  destruct (py_int_nonneg (T / dt)) as [Hfl Hpos]; [by apply Qcdiv_nonneg|].
  unfold step_count. rewrite <- Hfl. lia.
Qed.

(** ** The result of [integrate] *)

Lemma parameters_bound (N0 r dt T : Qc) :
  load_number (parameters N0 r dt T) "N_0" = Ok N0
  ∧ load_number (parameters N0 r dt T) "r" = Ok r
  ∧ load_number (parameters N0 r dt T) "delta_t" = Ok dt
  ∧ load_number (parameters N0 r dt T) "T_total" = Ok T.
Proof. unfold parameters. repeat split; by load_simpl. Qed.

Lemma integrate_samples (N0 r dt T : Qc) :
  dt ≠ 0 → (0 < step_count T dt)%Z →
  integrate N0 r dt T = Ok (samples N0 r dt (step_count T dt)).
Proof.
  intros Hdt Hn.
  destruct (parameters_bound N0 r dt T) as (HN0 & Hr & Hd & HT).
  destruct (integrator_spec N0 r dt T _ HN0 Hr Hd HT Hdt Hn)
    as (g' & Hrun & _ & Hvals & Htimes & _).
  unfold integrate. rewrite Hrun. cbn [bind]. unfold trajectory.
  rewrite (load_array_lookup _ _ _ Htimes). cbn [bind].
  by rewrite (load_array_lookup _ _ _ Hvals).
Qed.

Lemma integrate_raises (N0 r dt T : Qc) :
  (dt = 0 → integrate N0 r dt T = Raise ZeroDivisionError)
  ∧ (dt ≠ 0 → (step_count T dt < 0)%Z →
     integrate N0 r dt T = Raise ValueError)
  ∧ (dt ≠ 0 → step_count T dt = 0%Z →
     integrate N0 r dt T = Raise IndexError).
Proof.
  destruct (parameters_bound N0 r dt T) as (HN0 & Hr & Hd & HT).
  unfold integrate. repeat split.
  - intros H. by rewrite (integrator_zero_step dt T _ Hd HT H).
  - intros H Hn. by rewrite (integrator_negative_count dt T _ Hd HT H Hn).
  - intros H Hn. by rewrite (integrator_zero_count N0 dt T _ HN0 Hd HT H Hn).
Qed.

Lemma length_samples (N0 r dt : Qc) (n : Z) :
  length (samples N0 r dt n) = Z.to_nat n.
Proof.
  unfold samples, np_scale, np_arange.
  rewrite length_zip_with, length_fmap, length_py_range, length_euler_seq.
  lia.
Qed.

Lemma lookup_samples (N0 r dt : Qc) (n : Z) (i : nat) :
  (i < Z.to_nat n)%nat →
  samples N0 r dt n !! i
  = Some (Qc_of_Z (Z.of_nat i) * dt, N0 * (1 + r * dt) ^ i).
Proof.
  intros Hi. unfold samples, np_scale, np_arange.
  apply lookup_zip_with_Some. eexists _, _. split; [done|]. split.
  - rewrite list_lookup_fmap, lookup_py_range by lia. done.
  - by apply euler_seq_closed.
Qed.

(** Every point of the computed trajectory, by its index. *)
Lemma samples_point (N0 r dt : Qc) (n : Z) (i : nat) (t v : Qc) :
  samples N0 r dt n !! i = Some (t, v) →
  (i < Z.to_nat n)%nat
  ∧ t = Qc_of_Z (Z.of_nat i) * dt ∧ v = N0 * (1 + r * dt) ^ i.
Proof.
  intros H. assert (Hi : (i < Z.to_nat n)%nat).
  { apply lookup_lt_Some in H. by rewrite length_samples in H. }
  rewrite lookup_samples in H by done. by injection H as <- <-.
Qed.

(** Valid parameters: the cells run to completion. *)
Lemma integrate_valid (N0 r dt T : Qc) :
  0 < dt → 0 ≤ T →
  integrate N0 r dt T = Ok (samples N0 r dt (floor (T / dt) + 1))
  ∧ (0 < floor (T / dt) + 1)%Z.
Proof.
  intros Hdt HT. destruct (step_count_valid T dt Hdt HT) as (Hne & Hpos & Heq).
  rewrite <- Heq. split; [by apply integrate_samples|done].
Qed.

(** ** Order of the powers of the growth factor *)

Lemma Qcpower_pos_strict (q : Qc) (n : nat) : 0 < q → 0 < q ^ n.
Proof.
  intros Hq. induction n as [|n IH]; simpl; [done|].
  by apply Qcmult_pos_pos.
Qed.

Lemma Qcpower_lt_above (q : Qc) (i j : nat) :
  1 < q → (i < j)%nat → q ^ i < q ^ j.
Proof.
  intros Hq Hij. assert (H0 : 0 < q) by (by apply Qclt_trans with 1).
  induction Hij as [|j Hij IH].
  - simpl. rewrite <- (Qcmult_1_l (q ^ i)) at 1.
    apply Qcmult_lt_mono_pos_r; [by apply Qcpower_pos_strict|done].
  - apply Qclt_trans with (q ^ j); [done|].
    simpl. rewrite <- (Qcmult_1_l (q ^ j)) at 1.
    apply Qcmult_lt_mono_pos_r; [by apply Qcpower_pos_strict|done].
Qed.

Lemma Qcpower_lt_below (q : Qc) (i j : nat) :
  0 < q → q < 1 → (i < j)%nat → q ^ j < q ^ i.
Proof.
  intros H0 Hq Hij. induction Hij as [|j Hij IH].
  - simpl. rewrite <- (Qcmult_1_l (q ^ i)) at 2.
    apply Qcmult_lt_mono_pos_r; [by apply Qcpower_pos_strict|done].
  - apply Qclt_trans with (q ^ j); [|done].
    simpl. rewrite <- (Qcmult_1_l (q ^ j)) at 2.
    apply Qcmult_lt_mono_pos_r; [by apply Qcpower_pos_strict|done].
Qed.

Lemma growth_factor_above (r dt : Qc) : 0 < r → 0 < dt → 1 < 1 + r * dt.
Proof.
  intros Hr Hdt. rewrite <- (Qcplus_0_r 1) at 1.
  apply Qcplus_lt_mono_l. by apply Qcmult_pos_pos.
Qed.

Lemma growth_factor_below (r dt : Qc) :
  r < 0 → 0 < dt → - 1 < r * dt → 0 < 1 + r * dt ∧ 1 + r * dt < 1.
Proof.
  intros Hr Hdt Hs. split.
  - replace 0 with (1 + - 1) by ring. by apply Qcplus_lt_mono_l.
  - rewrite <- (Qcplus_0_r 1) at 2. apply Qcplus_lt_mono_l.
    rewrite <- (Qcmult_0_l dt). by apply Qcmult_lt_mono_pos_r.
Qed.

(** ** Running the cells in an arbitrary namespace *)

(** Proves that a given name is not in a given list of names. *)
Ltac not_in_names :=
  let H := fresh in
  intros H; unfold written, outputs in H;
  repeat (apply elem_of_cons in H as [H|H]; [discriminate H|]);
  by apply elem_of_nil in H.

Section Frame.
Variables N0 r dt T : Qc.
Variable g : Namespace.
Hypothesis Hbinds : binds g N0 r dt T.

(** The outcome depends on the four parameters only. *)
Lemma run_integrate : run g = integrate N0 r dt T.
Proof using Hbinds.
  destruct Hbinds as (HN0 & Hr & Hd & HT).
  destruct (integrate_raises N0 r dt T) as (Hzero & Hneg & Hnil).
  unfold run. destruct (decide (dt = 0)) as [Hdt|Hdt].
  { rewrite (Hzero Hdt). by rewrite (integrator_zero_step dt T g). }
  destruct (Z.lt_trichotomy (step_count T dt) 0) as [Hn|[Hn|Hn]].
  - rewrite (Hneg Hdt Hn). by rewrite (integrator_negative_count dt T g).
  - rewrite (Hnil Hdt Hn). by rewrite (integrator_zero_count N0 dt T g).
  - rewrite (integrate_samples N0 r dt T Hdt Hn).
    destruct (integrator_spec N0 r dt T g HN0 Hr Hd HT Hdt Hn)
      as (g' & Hrun & _ & Hvals & Htimes & _).
    rewrite Hrun. cbn [bind]. unfold trajectory.
    rewrite (load_array_lookup _ _ _ Htimes). cbn [bind].
    by rewrite (load_array_lookup _ _ _ Hvals).
Qed.

(** The cells leave every name they do not assign as it was. *)
Lemma integrator_frame (g' : Namespace) :
  integrator g = Ok g' → ∀ x : string, x ∉ written → g' !! x = g !! x.
Proof using Hbinds.
  destruct Hbinds as (HN0 & Hr & Hd & HT). intros Hrun.
  destruct (decide (dt = 0)) as [Hdt|Hdt].
  { by rewrite (integrator_zero_step dt T g) in Hrun. }
  destruct (Z.lt_trichotomy (step_count T dt) 0) as [Hn|[Hn|Hn]].
  - by rewrite (integrator_negative_count dt T g) in Hrun.
  - by rewrite (integrator_zero_count N0 dt T g) in Hrun.
  - destruct (integrator_spec N0 r dt T g HN0 Hr Hd HT Hdt Hn)
      as (g'' & Hrun' & _ & _ & _ & Hfr).
    rewrite Hrun in Hrun'. by injection Hrun' as <-.
Qed.

(** The parameters are not among the names the cells assign. *)
Lemma integrator_keeps_inputs (g' : Namespace) :
  integrator g = Ok g' → ∀ x : string, x ∈ inputs → g' !! x = g !! x.
Proof using Hbinds.
  intros Hrun x Hx. apply (integrator_frame g' Hrun).
  unfold inputs in Hx.
  repeat (apply elem_of_cons in Hx as [->|Hx]; [not_in_names|]).
  by apply elem_of_nil in Hx.
Qed.

(** So they are still bound to the same values. *)
Lemma integrator_keeps_parameters (g' : Namespace) :
  integrator g = Ok g' → binds g' N0 r dt T.
Proof using Hbinds.
  intros Hrun. pose proof (integrator_keeps_inputs g' Hrun) as Hfr.
  destruct Hbinds as (HN0 & Hr & Hd & HT).
  unfold binds, load_number, load, inputs in *.
  rewrite !Hfr; [done|repeat first [apply list_elem_of_here
                                   |apply list_elem_of_further]..].
Qed.
End Frame.

(** ** Rationals as real numbers *)

Section Reals.
Local Open Scope R_scope.

Lemma Qc2R_plus (x y : Qc) : Qc2R (x + y) = Qc2R x + Qc2R y.
Proof.
  unfold Qc2R. rewrite <- Q2R_plus. apply Qeq_eqR. simpl.
  apply Qred_correct.
Qed.

Lemma Qc2R_mult (x y : Qc) : Qc2R (x * y) = Qc2R x * Qc2R y.
Proof.
  unfold Qc2R. rewrite <- Q2R_mult. apply Qeq_eqR. simpl.
  apply Qred_correct.
Qed.

Lemma Qc2R_0 : Qc2R 0 = 0.
Proof. unfold Qc2R, Q2R. simpl. lra. Qed.

Lemma Qc2R_1 : Qc2R 1 = 1.
Proof. unfold Qc2R, Q2R. simpl. lra. Qed.

Lemma Qc2R_pow (x : Qc) (n : nat) : Qc2R (x ^ n) = Qc2R x ^ n.
Proof.
  induction n as [|n IH]; simpl.
  - apply Qc2R_1.
  - by rewrite Qc2R_mult, IH.
Qed.

Lemma Qc2R_of_nat (n : nat) : Qc2R (Qc_of_Z (Z.of_nat n)) = INR n.
Proof.
  unfold Qc2R, Q2R. simpl. rewrite <- INR_IZR_INZ. lra.
Qed.

Lemma Qc2R_le (x y : Qc) : (x ≤ y)%Qc → Qc2R x <= Qc2R y.
Proof. intros H. by apply Qle_Rle. Qed.

Lemma Qc2R_lt (x y : Qc) : (x < y)%Qc → Qc2R x < Qc2R y.
Proof. intros H. by apply Qlt_Rlt. Qed.

(** ** The exponential and the growth factor *)

Lemma Rabs_le_between (x b : R) : Rabs x <= b → - b <= x <= b.
Proof. unfold Rabs. destruct (Rcase_abs x); lra. Qed.

Lemma exp_le_mono (x y : R) : x <= y → exp x <= exp y.
Proof.
  intros [H| ->]; [|lra]. left. by apply exp_increasing.
Qed.

(** The exponential exceeds its first-order expansion by at most
    [2 x^2] on the interval [-1/2, 1/2]. *)
Lemma exp_second_order (x : R) :
  Rabs x <= 1 / 2 → 0 <= exp x - (1 + x) <= 2 * x².
Proof.
  intros Hx. apply Rabs_le_between in Hx. split.
  - pose proof (exp_ineq1_le x). lra.
  - pose proof (exp_ineq1_le (- x)) as Hm.
    pose proof (exp_pos x) as Hp.
    assert (Hinv : exp x * exp (- x) = 1).
    { rewrite <- exp_plus. replace (x + - x) with 0 by lra. apply exp_0. }
    assert (Hle : exp x * (1 - x) <= 1) by nra.
    unfold Rsqr.
    assert (Hpoly : 1 <= (1 + x + 2 * (x * x)) * (1 - x)) by nra.
    nra.
Qed.

Lemma exp_pow_INR (x : R) (i : nat) : exp (INR i * x) = exp x ^ i.
Proof.
  induction i as [|i IH].
  - simpl. rewrite Rmult_0_l. apply exp_0.
  - rewrite S_INR. replace ((INR i + 1) * x) with (x + INR i * x) by lra.
    rewrite exp_plus, IH. reflexivity.
Qed.

(** Powers of two nearby bases: the telescoping bound. *)
Lemma pow_diff_bound (a b B : R) (i : nat) :
  0 <= a → a <= b → b <= B → 1 <= B →
  0 <= b ^ i - a ^ i <= INR i * B ^ i * (b - a).
Proof.
  intros Ha Hab HbB HB. induction i as [|i [IHlo IHhi]].
  - simpl. lra.
  - assert (Hai : 0 <= a ^ i) by (apply pow_le; lra).
    assert (Hbi : 0 <= b ^ i) by (apply pow_le; lra).
    assert (HBi : 0 <= B ^ i) by (apply pow_le; lra).
    assert (HbBi : b ^ i <= B ^ i) by (apply pow_incr; lra).
    assert (Hi : 0 <= INR i) by apply pos_INR.
    assert (Heq : b ^ S i - a ^ S i = b ^ i * (b - a) + a * (b ^ i - a ^ i))
      by (simpl; ring).
    rewrite Heq, S_INR. split; [nra|].
    assert (H1 : b ^ i * (b - a) <= B ^ S i * (b - a)).
    { apply Rmult_le_compat_r; [lra|]. simpl. nra. }
    assert (H2 : a * (b ^ i - a ^ i) <= B * (INR i * B ^ i * (b - a))).
    { apply Rmult_le_compat; lra. }
    simpl in *. nra.
Qed.

(** The global error of the explicit Euler method on [dN/dt = r N]:
    first order in the step [h], uniformly in the index while
    [i * h <= tau]. *)
Lemma euler_error_bound (n0 rho h tau : R) (i : nat) :
  0 < h → Rabs rho * h <= 1 / 2 → INR i * h <= tau →
  Rabs (n0 * (1 + rho * h) ^ i - n0 * exp (rho * (INR i * h)))
  <= 2 * Rabs n0 * tau * rho² * exp (Rabs rho * tau) * h.
Proof.
  intros Hh Hsmall Htau.
  set (x := rho * h).
  assert (Hx : Rabs x <= 1 / 2).
  { unfold x. rewrite Rabs_mult, (Rabs_pos_eq h) by lra. done. }
  destruct (exp_second_order x Hx) as [Hlo Hhi].
  assert (Hax : 0 <= 1 + x) by (apply Rabs_le_between in Hx; lra).
  assert (HB1 : 1 <= exp (Rabs x)).
  { pose proof (exp_ineq1_le (Rabs x)). pose proof (Rabs_pos x). lra. }
  assert (HbB : exp x <= exp (Rabs x)) by apply exp_le_mono, Rle_abs.
  destruct (pow_diff_bound (1 + x) (exp x) (exp (Rabs x)) i)
    as [Hdlo Hdhi]; [lra..|].
  replace (rho * (INR i * h)) with (INR i * x) by (unfold x; ring).
  rewrite exp_pow_INR.
  replace (n0 * (1 + x) ^ i - n0 * exp x ^ i)
    with (- (n0 * (exp x ^ i - (1 + x) ^ i))) by ring.
  rewrite Rabs_Ropp, Rabs_mult, (Rabs_pos_eq (exp x ^ i - _)) by done.
  assert (Hi : 0 <= INR i) by apply pos_INR.
  assert (Hih : 0 <= INR i * h) by nra.
  (* the power of the majorant *)
  assert (HBi : exp (Rabs x) ^ i <= exp (Rabs rho * tau)).
  { rewrite <- exp_pow_INR. apply exp_le_mono. unfold x.
    rewrite Rabs_mult, (Rabs_pos_eq h) by lra.
    pose proof (Rabs_pos rho). nra. }
  assert (HBi0 : 0 <= exp (Rabs x) ^ i) by (apply pow_le; lra).
  (* the accumulated local errors *)
  assert (Hacc : INR i * (exp x - (1 + x)) <= 2 * tau * rho² * h).
  { apply Rle_trans with (INR i * (2 * x²)); [nra|].
    unfold x, Rsqr.
    replace (INR i * (2 * (rho * h * (rho * h))))
      with (2 * (INR i * h) * (rho * rho) * h) by ring.
    pose proof (Rle_0_sqr rho) as Hsq. unfold Rsqr in Hsq.
    apply Rmult_le_compat_r; [lra|].
    apply Rmult_le_compat_r; [done|]. lra. }
  assert (Hacc0 : 0 <= INR i * (exp x - (1 + x))) by nra.
  assert (Hd : exp x ^ i - (1 + x) ^ i
               <= exp (Rabs rho * tau) * (2 * tau * rho² * h)).
  { apply Rle_trans with (exp (Rabs x) ^ i * (INR i * (exp x - (1 + x)))).
    - lra.
    - pose proof (exp_pos (Rabs rho * tau)).
      apply Rmult_le_compat; done. }
  pose proof (Rabs_pos n0) as Hn0.
  apply Rle_trans
    with (Rabs n0 * (exp (Rabs rho * tau) * (2 * tau * rho² * h))).
  - by apply Rmult_le_compat_l.
  - apply Req_le. ring.
Qed.

(** The exponential exceeds its first-order expansion by at least
    [x^2 / 4]. *)
Lemma exp_quadratic_lower (x : R) : - 2 <= x → x² / 4 <= exp x - (1 + x).
Proof.
  intros Hx. pose proof (exp_ineq1_le (x / 2)) as Hhalf.
  assert (Hsq : exp x = exp (x / 2) * exp (x / 2)).
  { rewrite <- exp_plus. f_equal. lra. }
  unfold Rsqr. rewrite Hsq. nra.
Qed.

Lemma exp_below_factor (x : R) : Rabs x <= 1 / 2 → exp (- 2 * Rabs x) <= 1 + x.
Proof.
  intros Hx. pose proof (Rabs_pos x) as Hpos.
  apply Rle_trans with (1 - Rabs x).
  - pose proof (exp_ineq1_le (2 * Rabs x)) as Hup.
    pose proof (exp_pos (- 2 * Rabs x)) as Hm.
    assert (Hinv : exp (- 2 * Rabs x) * exp (2 * Rabs x) = 1).
    { rewrite <- exp_plus. replace (- 2 * Rabs x + 2 * Rabs x) with 0 by lra.
      apply exp_0. }
    assert (H1 : exp (- 2 * Rabs x) * (1 + 2 * Rabs x) <= 1) by nra.
    assert (H2 : 1 <= (1 - Rabs x) * (1 + 2 * Rabs x)) by nra.
    nra.
  - unfold Rabs. destruct (Rcase_abs x); lra.
Qed.

(** Powers of two nearby bases: the telescoping bound from below. *)
Lemma pow_diff_lower (m a b : R) (i : nat) :
  0 <= m → m <= 1 → m <= a → a <= b →
  INR i * m ^ i * (b - a) <= b ^ i - a ^ i.
Proof.
  intros Hm Hm1 Hma Hab. induction i as [|i IH].
  - simpl. lra.
  - assert (Hmi : 0 <= m ^ i) by (apply pow_le; lra).
    assert (Hmb : m ^ i <= b ^ i) by (apply pow_incr; lra).
    assert (Hi : 0 <= INR i) by apply pos_INR.
    assert (Heq : b ^ S i - a ^ S i = b ^ i * (b - a) + a * (b ^ i - a ^ i))
      by (simpl; ring).
    rewrite Heq, S_INR.
    assert (H0 : 0 <= INR i * m ^ i * (b - a)).
    { apply Rmult_le_pos; [apply Rmult_le_pos; done|lra]. }
    assert (H1 : m ^ S i * (b - a) <= b ^ i * (b - a)).
    { apply Rmult_le_compat_r; [lra|]. simpl. nra. }
    assert (H2 : m * (INR i * m ^ i * (b - a)) <= a * (b ^ i - a ^ i)).
    { apply Rmult_le_compat; lra. }
    simpl in *. nra.
Qed.

(** The global error from below: the method is of order one and no
    better. *)
Lemma euler_error_lower (n0 rho h tau : R) (i : nat) :
  0 < h → Rabs rho * h <= 1 / 2 → INR i * h <= tau →
  Rabs n0 * exp (- 2 * Rabs rho * tau) * (INR i * h) * rho² / 4 * h
  <= Rabs (n0 * (1 + rho * h) ^ i - n0 * exp (rho * (INR i * h))).
Proof.
  intros Hh Hsmall Htau.
  set (x := rho * h).
  assert (Habs : Rabs x = Rabs rho * h).
  { unfold x. by rewrite Rabs_mult, (Rabs_pos_eq h) by lra. }
  assert (Hx : Rabs x <= 1 / 2) by (by rewrite Habs).
  pose proof (Rabs_le_between _ _ Hx) as Hxb.
  pose proof (exp_quadratic_lower x ltac:(lra)) as Hq.
  pose proof (exp_below_factor x Hx) as Hm.
  pose proof (exp_pos (- 2 * Rabs x)) as Hm0.
  pose proof (Rabs_pos x) as Hxpos.
  assert (Hm1 : exp (- 2 * Rabs x) <= 1).
  { rewrite <- exp_0. apply exp_le_mono. lra. }
  pose proof (exp_ineq1_le x) as Hab.
  pose proof (pow_diff_lower (exp (- 2 * Rabs x)) (1 + x) (exp x) i
                ltac:(lra) Hm1 Hm Hab) as Hlow.
  replace (rho * (INR i * h)) with (INR i * x) by (unfold x; ring).
  rewrite exp_pow_INR.
  replace (n0 * (1 + x) ^ i - n0 * exp x ^ i)
    with (- (n0 * (exp x ^ i - (1 + x) ^ i))) by ring.
  assert (Hi : 0 <= INR i) by apply pos_INR.
  assert (Hmi0 : 0 <= exp (- 2 * Rabs x) ^ i) by (apply pow_le; lra).
  assert (Hdiff : 0 <= exp x ^ i - (1 + x) ^ i).
  { apply Rle_trans with (INR i * exp (- 2 * Rabs x) ^ i * (exp x - (1 + x)));
      [|done].
    apply Rmult_le_pos; [apply Rmult_le_pos; done|lra]. }
  rewrite Rabs_Ropp, Rabs_mult, (Rabs_pos_eq (exp x ^ i - _)) by done.
  (* the power of the minorant *)
  assert (Hmi : exp (- 2 * Rabs rho * tau) <= exp (- 2 * Rabs x) ^ i).
  { rewrite <- exp_pow_INR. apply exp_le_mono. rewrite Habs.
    pose proof (Rabs_pos rho). nra. }
  pose proof (exp_pos (- 2 * Rabs rho * tau)) as He0.
  pose proof (Rabs_pos n0) as Hn0.
  pose proof (Rle_0_sqr rho) as Hsq.
  assert (Hx2 : x² = rho² * h * h) by (unfold x, Rsqr; ring).
  assert (Hstep : exp (- 2 * Rabs rho * tau) * (INR i * (rho² * h * h / 4))
                  <= exp x ^ i - (1 + x) ^ i).
  { apply Rle_trans with (exp (- 2 * Rabs x) ^ i * (INR i * (exp x - (1 + x)))).
    - apply Rmult_le_compat; [lra| |done|].
      + apply Rmult_le_pos; [done|]. rewrite <- Hx2. unfold Rsqr. nra.
      + apply Rmult_le_compat_l; [done|]. rewrite <- Hx2. lra.
    - lra. }
  apply Rle_trans
    with (Rabs n0 * (exp (- 2 * Rabs rho * tau)
                     * (INR i * (rho² * h * h / 4)))).
  - apply Req_le. field.
  - by apply Rmult_le_compat_l.
Qed.

(** ** The error of the computed trajectory *)

(** Every sample time lies within the integration horizon. *)
Lemma sample_time_bound (dt T : Qc) (i : nat) :
  (0 < dt)%Qc → (i < Z.to_nat (floor (T / dt) + 1))%nat →
  (Qc_of_Z (Z.of_nat i) * dt ≤ T)%Qc.
Proof.
  intros Hdt Hi.
  assert (Hfl : (Qc_of_Z (Z.of_nat i) ≤ T / dt)%Qc).
  { unfold Qcle. apply Qle_trans with (inject_Z (floor (T / dt))).
    - simpl. rewrite <- Zle_Qle. lia.
    - apply Qfloor_le. }
  assert (HT : (T / dt * dt)%Qc = T).
  { rewrite Qcmult_comm. apply Qcmult_div_r.
    by apply not_eq_sym, Qclt_not_eq. }
  apply Qcle_trans with (T / dt * dt)%Qc; [|by rewrite HT; apply Qcle_refl].
  apply Qcmult_le_mono_nonneg_r; [by apply Qclt_le_weak|done].
Qed.

Lemma samples_error (N0 r dt T : Qc) :
  (0 < dt)%Qc → Rabs (Qc2R r) * Qc2R dt <= 1 / 2 →
  global_error_within N0 r (samples N0 r dt (floor (T / dt) + 1))
    (2 * Rabs (Qc2R N0) * Qc2R T * (Qc2R r)²
     * exp (Rabs (Qc2R r) * Qc2R T) * Qc2R dt).
Proof.
  intros Hdt Hsmall i v s Hv Hs.
  unfold solution in Hs. rewrite list_lookup_fmap in Hs.
  rewrite list_lookup_fmap in Hv. rewrite list_lookup_fmap in Hs.
  destruct (samples N0 r dt _ !! i) as [[t0 v0]|] eqn:Hp; [|done].
  apply samples_point in Hp as (Hi & -> & ->).
  simpl in Hv, Hs. injection Hv as <-. injection Hs as <-.
  rewrite !Qc2R_mult, Qc2R_pow, Qc2R_plus, Qc2R_1, Qc2R_mult, Qc2R_of_nat.
  apply euler_error_bound; [|done|].
  - rewrite <- Qc2R_0. by apply Qc2R_lt.
  - rewrite <- Qc2R_of_nat, <- Qc2R_mult. apply Qc2R_le.
    by apply sample_time_bound.
Qed.

(** The last sample time is less than one step short of the horizon. *)
Lemma last_sample_time (dt T : Qc) :
  (0 < dt)%Qc → (0 ≤ T)%Qc →
  (T < Qc_of_Z (Z.of_nat (Z.to_nat (floor (T / dt)))) * dt + dt)%Qc.
Proof.
  intros Hdt HT.
  destruct (py_int_nonneg (T / dt)) as [Hfl Hpos]; [by apply Qcdiv_nonneg|].
  rewrite Hfl in Hpos. rewrite Z2Nat.id by done.
  assert (HTd : (T / dt * dt)%Qc = T).
  { rewrite Qcmult_comm. apply Qcmult_div_r.
    by apply not_eq_sym, Qclt_not_eq. }
  assert (Hlt : (T / dt < Qc_of_Z (floor (T / dt) + 1))%Qc).
  { unfold Qclt. simpl. apply Qlt_floor. }
  replace (Qc_of_Z (floor (T / dt)) * dt + dt)%Qc
    with (Qc_of_Z (floor (T / dt) + 1) * dt)%Qc
    by (rewrite Z2Qc_inj_add, Z2Qc_inj_1; ring).
  rewrite <- HTd at 1. by apply Qcmult_lt_mono_pos_r.
Qed.

Lemma Qc2R_neq_0 (x : Qc) : x ≠ 0%Qc → Qc2R x <> 0.
Proof.
  intros Hx. destruct (Qc_dec x 0) as [[Hlt|Hgt]|Heq]; [| |done].
  - apply Qc2R_lt in Hlt. rewrite Qc2R_0 in Hlt. lra.
  - apply Qc2R_lt in Hgt. rewrite Qc2R_0 in Hgt. lra.
Qed.

(** The error at the last sample is at least proportional to the step. *)
Lemma samples_error_last (N0 r dt T : Qc) :
  (0 < dt)%Qc → (0 ≤ T)%Qc →
  Rabs (Qc2R r) * Qc2R dt <= 1 / 2 → Qc2R dt <= Qc2R T / 2 →
  let traj := samples N0 r dt (floor (T / dt) + 1) in
  ∃ (i : nat) (v : Qc) (s : R),
    traj.*2 !! i = Some v ∧ solution N0 r (traj.*1) !! i = Some s
    ∧ Rabs (Qc2R N0) * exp (- 2 * Rabs (Qc2R r) * Qc2R T)
        * (Qc2R T / 2) * (Qc2R r)² / 4 * Qc2R dt
      <= Rabs (Qc2R v - s).
Proof.
  intros Hdt HT Hsmall Hhalf traj.
  destruct (py_int_nonneg (T / dt)) as [Hfl Hpos]; [by apply Qcdiv_nonneg|].
  rewrite Hfl in Hpos.
  set (i := Z.to_nat (floor (T / dt))).
  assert (Hi : (i < Z.to_nat (floor (T / dt) + 1))%nat) by (unfold i; lia).
  pose proof (lookup_samples N0 r dt _ i Hi) as Hp. fold traj in Hp.
  eexists i, _, _. split; [|split].
  - rewrite list_lookup_fmap, Hp. reflexivity.
  - unfold solution. rewrite !list_lookup_fmap, Hp. reflexivity.
  - simpl.
    rewrite !Qc2R_mult, Qc2R_pow, Qc2R_plus, Qc2R_1, Qc2R_mult, Qc2R_of_nat.
    assert (Hh : 0 < Qc2R dt) by (rewrite <- Qc2R_0; by apply Qc2R_lt).
    assert (Hup : INR i * Qc2R dt <= Qc2R T).
    { rewrite <- Qc2R_of_nat, <- Qc2R_mult. apply Qc2R_le.
      by apply sample_time_bound. }
    assert (Hlo : Qc2R T / 2 <= INR i * Qc2R dt).
    { pose proof (last_sample_time dt T Hdt HT) as Hlast.
      apply Qc2R_lt in Hlast. fold i in Hlast.
      rewrite Qc2R_plus, Qc2R_mult, Qc2R_of_nat in Hlast. lra. }
    eapply Rle_trans; [|by apply (euler_error_lower _ _ _ (Qc2R T))].
    pose proof (Rabs_pos (Qc2R N0)) as Hn0.
    pose proof (exp_pos (- 2 * Rabs (Qc2R r) * Qc2R T)) as He.
    pose proof (Rle_0_sqr (Qc2R r)) as Hsq.
    apply Rmult_le_compat_r; [lra|].
    apply Rmult_le_compat_r; [lra|].
    apply Rmult_le_compat_r; [done|].
    apply Rmult_le_compat_l; [|done].
    apply Rmult_le_pos; lra.
Qed.
End Reals.

(** ** The step count in binary64 arithmetic *)

(** In the sample scenario, [T_total = 5] and [delta_t = .01], the
    binary64 quotient is exactly 500 and the step count is the one of the
    exact model. *)
Lemma num_steps_binary64_sample :
  num_steps_binary64 (b64_of_Z 5) (b64_decimal 1 100) = Ok 501%Z
  ∧ step_count (Qc_of_Z 5) (Q2Qc 0.01) = 501%Z.
Proof. split; vm_compute; reflexivity. Qed.

(** The quotient is rounded before it is truncated, so the two models can
    differ by one where the exact quotient is an integer: [0.3 / 0.1] is
    computed as [2.9999999999999996]. *)
Lemma num_steps_binary64_rounding :
  num_steps_binary64 (b64_decimal 3 10) (b64_decimal 1 10) = Ok 3%Z
  ∧ step_count (Q2Qc 0.3) (Q2Qc 0.1) = 4%Z.
Proof. split; vm_compute; reflexivity. Qed.

(** * The claims *)







(** C4. For valid parameters the first point of the trajectory is at time
    [0] and carries the initial value [N0]. *)
Theorem C4_initial_point (N0 r dt T : Qc) :
  0 < dt → 0 ≤ T →
  ∃ traj : list (Qc * Qc),
    integrate N0 r dt T = Ok traj ∧ traj !! 0%nat = Some (0, N0).
Proof.
  intros Hdt HT. destruct (integrate_valid N0 r dt T Hdt HT) as [Hrun Hpos].
  eexists. split; [exact Hrun|].
  rewrite lookup_samples by lia. f_equal. f_equal.
  - change (Qc_of_Z (Z.of_nat 0)) with (Qc_of_Z 0).
    rewrite Z2Qc_inj_0. ring.
  - simpl. ring.
Qed.

Lemma C4_initial_point_witness :
  0 < Q2Qc 0.01 ∧ 0 ≤ Qc_of_Z 5
  ∧ ∃ traj : list (Qc * Qc),
      integrate (Qc_of_Z 7) 1 (Q2Qc 0.01) (Qc_of_Z 5) = Ok traj
      ∧ traj !! 0%nat = Some (0, Qc_of_Z 7).
Proof.
  assert (H1 : 0 < Q2Qc 0.01) by (vm_compute; reflexivity).
  assert (H2 : 0 ≤ Qc_of_Z 5) by (vm_compute; discriminate).
  split; [exact H1|]. split; [exact H2|].
  exact (C4_initial_point (Qc_of_Z 7) 1 (Q2Qc 0.01) (Qc_of_Z 5) H1 H2).
Defined.






(** C7. With [N0 = 10], [r = 0], [dt = 0.1] and [T = 0] the result is the
    one-point trajectory [(0, 10)]. *)
Theorem C7_zero_duration :
  integrate (Qc_of_Z 10) 0 (Q2Qc 0.1) 0 = Ok [(0, Qc_of_Z 10)].
Proof.
  rewrite integrate_samples.
  - replace (step_count 0 (Q2Qc 0.1)) with 1%Z by (vm_compute; reflexivity).
    unfold samples. simpl.
    repeat f_equal; apply Qc_is_canon; vm_compute; reflexivity.
  - by apply not_eq_sym, Qclt_not_eq.
  - vm_compute. reflexivity.
Qed.








(** * Further properties of the cells *)

(** ** Rational arithmetic through [Q] *)

(** Turns a goal and its hypotheses about the order of canonical
    rationals into statements about plain rationals over fresh variables,
    for [lra] and [nra]. *)
Ltac qc_unfold :=
  unfold Qcle, Qclt, Qcminus, Qcdiv, Qc_of_Z in *;
  cbn [this Qcplus Qcmult Qcopp Q2Qc] in *;
  repeat (rewrite Qred_correct in * );
  repeat match goal with
         | H : context [Qred _] |- _ => rewrite Qred_correct in H
         end;
  repeat match goal with
         | |- context [this ?x] =>
             let q := fresh "q" in set (q := this x) in *; clearbody q
         | H : context [this ?x] |- _ =>
             let q := fresh "q" in set (q := this x) in *; clearbody q
         end.

(** The growth factor and the product [r * dt]. *)
Lemma growth_factor_sign (r dt : Qc) :
  (0 < 1 + r * dt ↔ - 1 < r * dt) ∧ (1 + r * dt < 0 ↔ r * dt < - 1).
Proof. repeat split; intros H; qc_unfold; Lqa.lra. Qed.

Lemma Qcpower_nonzero (q : Qc) (n : nat) : q ≠ 0 → q ^ n ≠ 0.
Proof.
  intros Hq. induction n as [|n IH]; simpl.
  - apply not_eq_sym, Qclt_not_eq. reflexivity.
  - intros H. apply Qcmult_integral in H as [H|H]; done.
Qed.

(** The floor of a number shifted by an integer. *)
Lemma floor_unique (x : Qc) (n : Z) :
  Qc_of_Z n ≤ x → x < Qc_of_Z (n + 1) → floor x = n.
Proof.
  intros Hlo Hhi. unfold floor.
  assert (H1 : (n ≤ Qfloor (this x))%Z).
  { rewrite <- (Qfloor_Z n). by apply Qfloor_resp_le. }
  assert (H2 : (Qfloor (this x) < n + 1)%Z).
  { rewrite Zlt_Qlt. eapply Qle_lt_trans; [apply Qfloor_le|exact Hhi]. }
  lia.
Qed.

Lemma floor_bounds (x : Qc) :
  Qc_of_Z (floor x) ≤ x ∧ x < Qc_of_Z (floor x + 1).
Proof.
  unfold floor, Qcle, Qclt. simpl. split; [apply Qfloor_le|apply Qlt_floor].
Qed.

Lemma floor_shift (k : Z) (x : Qc) : floor (Qc_of_Z k + x) = (k + floor x)%Z.
Proof.
  destruct (floor_bounds x) as [Hlo Hhi]. apply floor_unique.
  - rewrite Z2Qc_inj_add. by apply Qcplus_le_mono_l.
  - replace (k + floor x + 1)%Z with (k + (floor x + 1))%Z by lia.
    rewrite Z2Qc_inj_add. by apply Qcplus_lt_mono_l.
Qed.

Lemma floor_mono (x y : Qc) : x ≤ y → (floor x ≤ floor y)%Z.
Proof. intros H. unfold floor. by apply Qfloor_resp_le. Qed.

Lemma Qcdiv_le_mono (x y d : Qc) : 0 < d → x ≤ y → x / d ≤ y / d.
Proof.
  intros Hd Hxy. unfold Qcdiv. apply Qcmult_le_mono_nonneg_r; [|done].
  apply Qclt_le_weak. by apply Qcinv_pos.
Qed.

Lemma Qcdiv_mul_cancel (x d : Qc) : d ≠ 0 → x / d * d = x.
Proof. intros Hd. rewrite Qcmult_comm. by apply Qcmult_div_r. Qed.

Lemma Qcmult_le_neg (a b d : Qc) : d < 0 → a ≤ b → b * d ≤ a * d.
Proof. intros Hd Hab. qc_unfold. Lqa.nra. Qed.

Lemma Qcmult_lt_neg (a b d : Qc) : d < 0 → a < b → b * d < a * d.
Proof. intros Hd Hab. qc_unfold. Lqa.nra. Qed.

Lemma Qcdiv_nonpos_neg (x d : Qc) : x ≤ 0 → d < 0 → 0 ≤ x / d.
Proof.
  intros Hx Hd. assert (Hne : d ≠ 0) by (by apply Qclt_not_eq).
  destruct (Qclt_le_dec (x / d) 0) as [Hneg|Hpos]; [|done].
  pose proof (Qcmult_lt_neg _ _ d Hd Hneg) as H.
  rewrite Qcmult_0_l, Qcdiv_mul_cancel in H by done.
  by destruct (Qcle_not_lt _ _ Hx).
Qed.

Lemma Qcpower_plus (q : Qc) (n m : nat) : q ^ (n + m) = q ^ n * q ^ m.
Proof. induction n as [|n IH]; simpl; [ring|]. rewrite IH. ring. Qed.

Lemma Qc_of_nat_nonneg (i : nat) : 0 ≤ Qc_of_Z (Z.of_nat i).
Proof. rewrite <- Z2Qc_inj_0. apply (proj1 (Z2Qc_inj_le _ _)). lia. Qed.

(** ** The time axis and the horizon *)

Lemma samples_prefix (N0 r dt : Qc) (n n' : Z) :
  (n ≤ n')%Z → samples N0 r dt n `prefix_of` samples N0 r dt n'.
Proof.
  intros Hn.
  assert (Heq : samples N0 r dt n
                = take (Z.to_nat n) (samples N0 r dt n')).
  { apply list_eq. intros i.
    destruct (decide (i < Z.to_nat n)%nat) as [Hi|Hi].
    - rewrite lookup_take_lt by done.
      by rewrite !lookup_samples by lia.
    - rewrite lookup_take_ge by lia.
      apply lookup_ge_None. rewrite length_samples. lia. }
  rewrite Heq. apply prefix_take.
Qed.





(** X3. A longer horizon extends the trajectory and changes none of its
    points: for [T <= T'] the trajectory for [T] is a prefix of the one
    for [T']. *)
Theorem X3_horizon_prefix (N0 r dt T T' : Qc) :
  0 < dt → 0 ≤ T → T ≤ T' →
  ∃ traj traj' : list (Qc * Qc),
    integrate N0 r dt T = Ok traj
    ∧ integrate N0 r dt T' = Ok traj'
    ∧ traj `prefix_of` traj'.
Proof.
  intros Hdt HT HTT'.
  assert (HT' : 0 ≤ T') by (by apply Qcle_trans with T).
  destruct (integrate_valid N0 r dt T Hdt HT) as [Hrun _].
  destruct (integrate_valid N0 r dt T' Hdt HT') as [Hrun' _].
  eexists _, _. split; [exact Hrun|]. split; [exact Hrun'|].
  apply samples_prefix.
  assert (floor (T / dt) ≤ floor (T' / dt))%Z; [|lia].
  by apply floor_mono, Qcdiv_le_mono.
Qed.

Lemma X3_horizon_prefix_witness :
  0 < Q2Qc 0.5 ∧ 0 ≤ 1 ∧ 1 ≤ Qc_of_Z 3
  ∧ ∃ traj traj' : list (Qc * Qc),
      integrate 1 1 (Q2Qc 0.5) 1 = Ok traj
      ∧ integrate 1 1 (Q2Qc 0.5) (Qc_of_Z 3) = Ok traj'
      ∧ traj `prefix_of` traj'.
Proof.
  assert (H1 : 0 < Q2Qc 0.5) by (vm_compute; reflexivity).
  assert (H2 : 0 ≤ 1) by (vm_compute; discriminate).
  assert (H3 : 1 ≤ Qc_of_Z 3) by (vm_compute; discriminate).
  split; [exact H1|]. split; [exact H2|]. split; [exact H3|].
  exact (X3_horizon_prefix 1 1 (Q2Qc 0.5) 1 (Qc_of_Z 3) H1 H2 H3).
Defined.

(** ** The values as a function of the initial value *)





(** ** Sign and magnitude of the values *)

Section Values.
Variables N0 r dt T : Qc.
Hypothesis Hdt : 0 < dt.
Hypothesis HT : 0 ≤ T.

(** The values of the trajectory, by index, and the step between two of
    them. *)
Lemma values_point (i : nat) (v : Qc) :
  (samples N0 r dt (floor (T / dt) + 1)).*2 !! i = Some v →
  v = N0 * (1 + r * dt) ^ i.
Proof.
  intros Hv. rewrite list_lookup_fmap in Hv.
  destruct (samples N0 r dt _ !! i) as [[t0 v0]|] eqn:Hp; [|done].
  apply samples_point in Hp as (_ & _ & ->). by injection Hv as <-.
Qed.

Lemma values_step (i : nat) (x y : Qc) :
  (samples N0 r dt (floor (T / dt) + 1)).*2 !! i = Some x →
  (samples N0 r dt (floor (T / dt) + 1)).*2 !! S i = Some y →
  y = (1 + r * dt) * x.
Proof.
  intros Hx Hy. rewrite (values_point _ _ Hx), (values_point _ _ Hy).
  simpl. ring.
Qed.

Lemma values_nonzero (i : nat) (v : Qc) :
  N0 ≠ 0 → 1 + r * dt ≠ 0 →
  (samples N0 r dt (floor (T / dt) + 1)).*2 !! i = Some v → v ≠ 0.
Proof.
  intros HN0 Hq Hv. rewrite (values_point _ _ Hv). intros H.
  apply Qcmult_integral in H as [H|H]; [done|].
  by apply (Qcpower_nonzero _ i Hq).
Qed.
End Values.

Lemma Qcabs_pos_nonzero (x : Qc) : x ≠ 0 → 0 < Qcabs.Qcabs x.
Proof.
  intros Hx. destruct (Qcle_lt_or_eq _ _ (Qcabs.Qcabs_nonneg x)) as [H|H];
    [done|]. symmetry in H. by apply Qcabs.Qcabs_null in H.
Qed.

Lemma Qcabs_above_one (q : Qc) : q < - 1 ∨ 1 < q → 1 < Qcabs.Qcabs q.
Proof.
  intros [H|H].
  - rewrite Qcabs.Qcabs_neg by (qc_unfold; Lqa.lra). qc_unfold. Lqa.lra.
  - rewrite Qcabs.Qcabs_pos by (qc_unfold; Lqa.lra). done.
Qed.







(** ** The numerical and the analytical curve *)

Section Curves.
Local Open Scope R_scope.

Lemma Qc2R_opp_1 : Qc2R (- 1)%Qc = - 1.
Proof. unfold Qc2R, Q2R. simpl. lra. Qed.

Lemma pow_lt_strict (a b : R) (i : nat) :
  0 <= a → a < b → (1 ≤ i)%nat → a ^ i < b ^ i.
Proof.
  intros Ha Hab Hi. induction i as [|i IH]; [lia|].
  destruct i as [|i].
  - simpl. lra.
  - assert (H : a ^ S i < b ^ S i) by (apply IH; lia).
    assert (Hai : 0 <= a ^ S i) by (apply pow_le; lra).
    change (a * a ^ S i < b * b ^ S i). nra.
Qed.

(** The analytical curve of the notebook is the curve of a real rate. *)
Lemma solution_as_rate (N_0 r : Qc) (ts : list Qc) :
  solution N_0 r ts = solution_of_rate N_0 (Qc2R r) ts.
Proof. reflexivity. Qed.

(** A point of the numerical curve and the point of the analytical curve
    at the same index. *)
Lemma curves_point (N0 r dt : Qc) (n : Z) (i : nat) (v : Qc) (s : R) :
  (samples N0 r dt n).*2 !! i = Some v →
  solution N0 r ((samples N0 r dt n).*1) !! i = Some s →
  Qc2R v = Qc2R N0 * (1 + Qc2R r * Qc2R dt) ^ i
  ∧ s = Qc2R N0 * exp (Qc2R r * Qc2R dt) ^ i.
Proof.
  intros Hv Hs. unfold solution in Hs.
  rewrite list_lookup_fmap in Hv. rewrite !list_lookup_fmap in Hs.
  destruct (samples N0 r dt n !! i) as [[t0 v0]|] eqn:Hp; [|done].
  apply samples_point in Hp as (Hi & -> & ->).
  simpl in Hv, Hs. injection Hv as <-. injection Hs as <-.
  rewrite !Qc2R_mult, Qc2R_pow, Qc2R_plus, Qc2R_1, Qc2R_mult, Qc2R_of_nat.
  split; [done|]. rewrite <- exp_pow_INR. do 2 f_equal. ring.
Qed.
End Curves.





(** ** The cells one at a time *)

Lemma for_each_app {S I} (body : S → I → Res S) (l1 l2 : list I) (s : S) :
  for_each body (l1 ++ l2) s = (s' ←! for_each body l1 s; for_each body l2 s').
Proof.
  revert s. induction l1 as [|i l1 IH]; intros s; simpl; [done|].
  destruct (body s i); simpl; auto.
Qed.

Lemma py_range_split (start mid stop : Z) :
  (start ≤ mid)%Z → (mid ≤ stop)%Z →
  py_range start stop = py_range start mid ++ py_range mid stop.
Proof.
  intros H1 H2. apply list_eq. intros i.
  destruct (decide (start + Z.of_nat i < mid)%Z) as [Hi|Hi].
  - rewrite lookup_app_l by (rewrite length_py_range; lia).
    by rewrite !lookup_py_range by lia.
  - rewrite lookup_app_r by (rewrite length_py_range; lia).
    rewrite length_py_range.
    destruct (decide (start + Z.of_nat i < stop)%Z) as [Hs|Hs].
    + rewrite !lookup_py_range by lia. f_equal. lia.
    + rewrite !(proj2 (lookup_ge_None _ _)); [done|..];
        rewrite length_py_range; lia.
Qed.

Lemma np_getitem_outside (a : list Qc) (i : Z) :
  (Z.of_nat (length a) ≤ i)%Z → np_getitem a i = Raise IndexError.
Proof.
  intros H. unfold np_getitem, np_index.
  destruct (decide (i < 0)%Z) as [Hneg|_]; [lia|].
  by rewrite decide_False by lia.
Qed.

Lemma np_setitem_outside (a : list Qc) (i : Z) (v : Qc) :
  (Z.of_nat (length a) ≤ i)%Z → np_setitem a i v = Raise IndexError.
Proof.
  intros H. unfold np_setitem, np_index.
  destruct (decide (i < 0)%Z) as [Hneg|_]; [lia|].
  by rewrite decide_False by lia.
Qed.

Section LoopCell.
Variables r dt : Qc.

(** The loop body at an index at or past the end of the array. *)
Lemma euler_body_outside (g : Namespace) (a : list Qc) (t : Z) :
  load_number g "r" = Ok r →
  load_number g "delta_t" = Ok dt →
  g !! "N_t" = Some (VArray a) →
  (1 ≤ t)%Z → (Z.of_nat (length a) ≤ t)%Z →
  euler_body g t = Raise IndexError.
Proof.
  intros Hr Hdt Ha Ht Hlen. unfold euler_body.
  assert (Hload : load_array g "N_t" = Ok a) by by apply load_array_lookup.
  repeat first [load_step | rewrite Hr | rewrite Hdt | rewrite Hload].
  destruct (decide (Z.of_nat (length a) ≤ t - 1)%Z) as [Hout|Hin].
  - by rewrite np_getitem_outside.
  - destruct (lookup_lt_is_Some_2 a (Z.to_nat (t - 1))) as [x Hx]; [lia|].
    assert (Hget : np_getitem a (t - 1) = Ok x).
    { rewrite <- (Z2Nat.id (t - 1)) by lia. by apply np_getitem_inside. }
    repeat first [load_step | rewrite Hload | rewrite Hget].
    by rewrite np_setitem_outside.
Qed.

(** What the loop leaves in [t], in [dN] and in the part of the array it
    does not reach. *)
Lemma euler_loop_rest (m : nat) :
  ∀ (j : nat) (a : list Qc) (g g' : Namespace),
    load_number g "r" = Ok r →
    load_number g "delta_t" = Ok dt →
    g !! "N_t" = Some (VArray a) →
    (1 ≤ j)%nat →
    (j + m ≤ length a)%nat →
    for_each euler_body (py_range (Z.of_nat j) (Z.of_nat (j + m))) g = Ok g' →
    ∃ a' : list Qc,
      g' !! "N_t" = Some (VArray a')
      ∧ (∀ i, (j + m ≤ i)%nat → a' !! i = a !! i)
      ∧ (m = 0%nat → g' = g)
      ∧ ((1 ≤ m)%nat →
         g' !! "t" = Some (VInt (Z.of_nat (j + m - 1)))
         ∧ ∃ x : Qc, a' !! (j + m - 2)%nat = Some x
                     ∧ g' !! "dN" = Some (VFloat (r * dt * x))).
Proof.
  induction m as [|m IH]; intros j a g g' Hr Hdt Ha Hj Hlen Hrun.
  - rewrite py_range_nil in Hrun by lia. injection Hrun as <-.
    exists a. split; [done|]. split; [done|]. split; [done|]. lia.
  - rewrite py_range_cons in Hrun by lia. cbn [for_each] in Hrun.
    destruct (lookup_lt_is_Some_2 a (j - 1)) as [x Hx]; [lia|].
    destruct j as [|i]; [lia|].
    replace (S i - 1)%nat with i in Hx by lia.
    rewrite (euler_body_spec r dt g a i x) in Hrun by (auto; lia).
    cbn [bind] in Hrun.
    set (a1 := <[S i := x + r * dt * x]> a) in *.
    set (g1 := <["N_t" := VArray a1]> _) in *.
    replace (Z.of_nat (S i) + 1)%Z with (Z.of_nat (S (S i))) in Hrun by lia.
    replace (Z.of_nat (S i + S m)) with (Z.of_nat (S (S i) + m)) in Hrun
      by lia.
    destruct (IH (S (S i)) a1 g1 g') as (a' & Ha' & Hhigh & Hnone & Hsome).
    { unfold g1. by rewrite !load_number_insert_ne by done. }
    { unfold g1. by rewrite !load_number_insert_ne by done. }
    { unfold g1. by rewrite lookup_insert_eq. }
    { lia. }
    { unfold a1. rewrite length_insert. lia. }
    { exact Hrun. }
    exists a'. split; [exact Ha'|]. split; [|split; [lia|]].
    + intros k Hk. rewrite Hhigh by lia. unfold a1.
      by rewrite list_lookup_insert_ne by lia.
    + intros _. destruct m as [|m].
      * rewrite (Hnone eq_refl) in *. unfold g1 in *.
        rewrite lookup_insert_eq in Ha'. injection Ha' as <-.
        split.
        -- rewrite lookup_insert_ne by done.
           rewrite lookup_insert_ne by done.
           rewrite lookup_insert_eq. do 3 f_equal. lia.
        -- exists x. split.
           ++ unfold a1. rewrite list_lookup_insert_ne by lia.
              by replace (S i + 1 - 2)%nat with i by lia.
           ++ rewrite lookup_insert_ne by done. by rewrite lookup_insert_eq.
      * destruct (Hsome ltac:(lia)) as (Ht & y & Hy & HdN).
        split; [rewrite Ht; f_equal; f_equal; lia|].
        exists y. split; [|done].
        by replace (S i + S (S m) - 2)%nat with (S (S i) + S m - 2)%nat
          by lia.
Qed.
End LoopCell.

Lemma load_number_frame (g g' : Namespace) (x : string) :
  g' !! x = g !! x → load_number g' x = load_number g x.
Proof. intros H. unfold load_number, load. by rewrite H. Qed.

(** The allocation cell. *)
Lemma N_t_cell_spec (g : Namespace) (n : Z) (N0 : Qc) :
  g !! "num_steps" = Some (VInt n) → (0 < n)%Z →
  load_number g "N_0" = Ok N0 →
  N_t g = Ok (<["N_t" := VArray (<[0%nat := N0]>
                                   (replicate (Z.to_nat n) (0 : Qc)))]> g).
Proof.
  intros Hn Hpos HN0. unfold N_t.
  rewrite (load_int_lookup _ _ _ Hn). load_simpl. unfold np_zeros.
  rewrite decide_False by lia. load_simpl. rewrite HN0. load_simpl.
  rewrite (np_setitem_inside _ 0%nat) by (rewrite length_replicate; lia).
  cbn [bind]. by rewrite insert_insert_eq.
Qed.



(** X12. The loop cell over an array shorter than [num_steps], as left
    by an earlier run with a shorter horizon when only the first cell is
    run again: it raises [IndexError]. *)
Theorem X12_loop_stale_array (r dt : Qc) (g : Namespace) (a : list Qc)
    (n : Z) :
  load_number g "r" = Ok r →
  load_number g "delta_t" = Ok dt →
  g !! "num_steps" = Some (VInt n) →
  g !! "N_t" = Some (VArray a) →
  (Z.of_nat (length a) < n)%Z → (2 ≤ n)%Z →
  euler_loop g = Raise IndexError.
Proof.
  intros Hr Hdt Hn Ha Hlen H2. unfold euler_loop.
  rewrite (load_int_lookup _ _ _ Hn). cbn [bind].
  destruct (decide (length a = 0)%nat) as [Hz|Hnz].
  - rewrite py_range_cons by lia. cbn [for_each].
    rewrite (euler_body_outside r dt g a) by (auto; lia). done.
  - set (L := length a) in *.
    rewrite (py_range_split 1 (Z.of_nat L) n) by lia.
    rewrite for_each_app.
    destruct (euler_loop_inv r dt (L - 1) 1 a g Hr Hdt Ha)
      as (g1 & a1 & Hrun & Ha1 & Hl & _ & _ & Hfr); [lia..|].
    replace (Z.of_nat (1 + (L - 1))) with (Z.of_nat L) in Hrun by lia.
    change (Z.of_nat 1) with 1%Z in Hrun. rewrite Hrun. cbn [bind].
    rewrite py_range_cons by lia. cbn [for_each].
    rewrite (euler_body_outside r dt g1 a1); [done|..].
    + rewrite (load_number_frame g g1) by (by apply Hfr). done.
    + rewrite (load_number_frame g g1) by (by apply Hfr). done.
    + done.
    + lia.
    + rewrite Hl. fold L. lia.
Qed.

Lemma X12_loop_stale_array_witness :
  let a : list Qc := [1; 1] in
  let g := <["N_t" := VArray a]>
             (<["num_steps" := VInt 5]> (parameters 1 1 (Q2Qc 0.5) 1)) in
  load_number g "r" = Ok 1
  ∧ load_number g "delta_t" = Ok (Q2Qc 0.5)
  ∧ g !! "num_steps" = Some (VInt 5)
  ∧ g !! "N_t" = Some (VArray a)
  ∧ (Z.of_nat (length a) < 5)%Z ∧ (2 ≤ 5)%Z
  ∧ euler_loop g = Raise IndexError.
Proof.
  intros a g.
  assert (H1 : load_number g "r" = Ok 1) by reflexivity.
  assert (H2 : load_number g "delta_t" = Ok (Q2Qc 0.5)) by reflexivity.
  assert (H3 : g !! "num_steps" = Some (VInt 5)) by reflexivity.
  assert (H4 : g !! "N_t" = Some (VArray a)) by reflexivity.
  assert (H5 : (Z.of_nat (length a) < 5)%Z) by (simpl; lia).
  assert (H6 : (2 ≤ 5)%Z) by lia.
  split; [exact H1|]. split; [exact H2|]. split; [exact H3|].
  split; [exact H4|]. split; [exact H5|]. split; [exact H6|].
  exact (X12_loop_stale_array 1 (Q2Qc 0.5) g a 5 H1 H2 H3 H4 H5 H6).
Defined.

(** ** The cells run again, and run without their parameters *)

Section Rerun.
Variables N0 r dt T : Qc.
Variable g : Namespace.
Hypothesis Hbinds : binds g N0 r dt T.

(** The cells only succeed on a nonzero step and a positive step count. *)
Lemma integrator_Ok_inv (g' : Namespace) :
  integrator g = Ok g' → dt ≠ 0 ∧ (0 < step_count T dt)%Z.
Proof using Hbinds.
  destruct Hbinds as (HN0 & Hr & Hd & HT). intros Hrun.
  destruct (decide (dt = 0)) as [Hdt|Hdt].
  { by rewrite (integrator_zero_step dt T g) in Hrun. }
  split; [done|].
  destruct (Z.lt_trichotomy (step_count T dt) 0) as [Hn|[Hn|Hn]]; [| |done].
  - by rewrite (integrator_negative_count dt T g) in Hrun.
  - by rewrite (integrator_zero_count N0 dt T g) in Hrun.
Qed.

(** The loop variable and the increment after the cells have run. *)
Lemma integrator_vars (g' : Namespace) :
  integrator g = Ok g' →
  (step_count T dt = 1%Z →
   g' !! "t" = g !! "t" ∧ g' !! "dN" = g !! "dN")
  ∧ ((2 ≤ step_count T dt)%Z →
     g' !! "t" = Some (VInt (step_count T dt - 1))
     ∧ g' !! "dN"
       = Some (VFloat (r * dt * (N0 * (1 + r * dt)
                                      ^ Z.to_nat (step_count T dt - 2))))).
Proof using Hbinds.
  intros Hrun. destruct (integrator_Ok_inv g' Hrun) as [Hdt Hn].
  destruct Hbinds as (HN0 & Hr & Hd & HT).
  destruct (integrator_spec N0 r dt T g HN0 Hr Hd HT Hdt Hn)
    as (g'' & Hrun' & _ & Hvals & _ & _).
  rewrite Hrun in Hrun'. injection Hrun' as <-.
  set (n := step_count T dt) in *.
  unfold integrator in Hrun.
  rewrite (num_steps_spec dt T g Hd HT Hdt) in Hrun. fold n in Hrun.
  cbn [bind] in Hrun.
  set (g1 := <["num_steps" := VInt n]> g) in *.
  rewrite (N_t_cell_spec g1 n N0) in Hrun;
    [|by unfold g1; rewrite lookup_insert_eq|done
     |by unfold g1; rewrite load_number_insert_ne by done].
  cbn [bind] in Hrun.
  set (a0 := <[0%nat := N0]> (replicate (Z.to_nat n) (0 : Qc))) in *.
  set (g2 := <["N_t" := VArray a0]> g1) in *.
  assert (Hlen0 : length a0 = Z.to_nat n).
  { unfold a0. by rewrite length_insert, length_replicate. }
  assert (Hr2 : load_number g2 "r" = Ok r).
  { unfold g2, g1. by rewrite !load_number_insert_ne by done. }
  assert (Hd2 : load_number g2 "delta_t" = Ok dt).
  { unfold g2, g1. by rewrite !load_number_insert_ne by done. }
  assert (Ha2 : g2 !! "N_t" = Some (VArray a0)).
  { unfold g2. by rewrite lookup_insert_eq. }
  unfold euler_loop in Hrun.
  rewrite (load_int_lookup g2 "num_steps" n) in Hrun
    by (unfold g2, g1; rewrite lookup_insert_ne by done;
        by rewrite lookup_insert_eq).
  cbn [bind] in Hrun.
  replace (py_range 1 n)
    with (py_range (Z.of_nat 1) (Z.of_nat (1 + (Z.to_nat n - 1))))
    in Hrun by (f_equal; lia).
  destruct (for_each euler_body _ g2) as [g3|e] eqn:Hloop; [|done].
  cbn [bind] in Hrun.
  destruct (euler_loop_rest r dt (Z.to_nat n - 1) 1 a0 g2 g3 Hr2 Hd2 Ha2)
    as (a' & Ha' & _ & Hnone & Hsome); [lia..|exact Hloop|].
  unfold times in Hrun.
  destruct (load_int g3 "num_steps") as [n3|e]; [|done].
  cbn [bind] in Hrun.
  destruct (load_number g3 "delta_t") as [dt3|e]; [|done].
  cbn [bind] in Hrun. injection Hrun as <-.
  split.
  - intros H1. rewrite (Hnone ltac:(lia)).
    unfold g2, g1. by rewrite !lookup_insert_ne by done.
  - intros H2. destruct (Hsome ltac:(lia)) as (Ht & x & Hx & HdN).
    rewrite !lookup_insert_ne by done. split.
    + rewrite Ht. do 2 f_equal. lia.
    + rewrite HdN. do 3 f_equal.
      rewrite lookup_insert_ne in Hvals by done.
      rewrite Ha' in Hvals. injection Hvals as ->.
      rewrite euler_seq_closed in Hx by lia. injection Hx as <-.
      do 2 f_equal. lia.
Qed.
End Rerun.

(** X13. What a run leaves besides the trajectory: [num_steps], and after
    at least one update the loop variable [t = num_steps - 1] and the last
    increment [dN = r * dt * N_t[num_steps - 2]], so that the last value
    is the one before it plus [dN]. *)
Theorem X13_leftover_variables (N0 r dt T : Qc) (g g' : Namespace) :
  binds g N0 r dt T → integrator g = Ok g' →
  ∃ (n : Z) (a : list Qc),
    g' !! "num_steps" = Some (VInt n)
    ∧ g' !! "N_t" = Some (VArray a)
    ∧ Z.of_nat (length a) = n
    ∧ (n = 1%Z → g' !! "t" = g !! "t" ∧ g' !! "dN" = g !! "dN")
    ∧ ((2 ≤ n)%Z →
       ∃ x dN : Qc,
         g' !! "t" = Some (VInt (n - 1))
         ∧ g' !! "dN" = Some (VFloat dN)
         ∧ a !! Z.to_nat (n - 2) = Some x
         ∧ dN = r * dt * x
         ∧ a !! Z.to_nat (n - 1) = Some (x + dN)).
Proof.
  intros Hb Hrun.
  destruct (integrator_Ok_inv N0 r dt T g Hb g' Hrun) as [Hdt Hn].
  destruct (integrator_vars N0 r dt T g Hb g' Hrun) as [Hone Htwo].
  destruct Hb as (HN0 & Hr & Hd & HT).
  destruct (integrator_spec N0 r dt T g HN0 Hr Hd HT Hdt Hn)
    as (g'' & Hrun' & Hnum & Hvals & _ & _).
  rewrite Hrun in Hrun'. injection Hrun' as <-.
  eexists _, _. split; [exact Hnum|]. split; [exact Hvals|].
  split; [rewrite length_euler_seq; lia|]. split; [exact Hone|].
  intros H2. destruct (Htwo H2) as [Ht HdN].
  eexists _, _. split; [exact Ht|]. split; [exact HdN|].
  split; [apply euler_seq_closed; lia|]. split; [done|].
  rewrite euler_seq_closed by lia.
  replace (Z.to_nat (step_count T dt - 1))
    with (S (Z.to_nat (step_count T dt - 2))) by lia.
  f_equal. simpl. ring.
Qed.

Lemma X13_leftover_variables_witness :
  let g := parameters 1 1 1 (Qc_of_Z 2) in
  ∃ g' : Namespace,
    binds g 1 1 1 (Qc_of_Z 2) ∧ integrator g = Ok g'
    ∧ g' !! "num_steps" = Some (VInt 3)
    ∧ g' !! "t" = Some (VInt (3 - 1)).
Proof.
  intros g.
  assert (H1 : binds g 1 1 1 (Qc_of_Z 2)) by (repeat split; reflexivity).
  assert (Hok : ∃ g' : Namespace, integrator g = Ok g')
    by (vm_compute; eexists; reflexivity).
  destruct Hok as [g' Hrun]. exists g'.
  split; [exact H1|]. split; [exact Hrun|].
  destruct (X13_leftover_variables 1 1 1 (Qc_of_Z 2) g g' H1 Hrun)
    as (n & a & Hn & _ & _ & _ & Htwo).
  assert (Hn3 : (g0 ←! integrator g; Ok (g0 !! "num_steps"))
                = Ok (Some (VInt 3))) by (vm_compute; reflexivity).
  rewrite Hrun in Hn3. cbn [bind] in Hn3. injection Hn3 as Hn3.
  split; [exact Hn3|].
  assert (n = 3%Z) as -> by congruence.
  destruct (Htwo ltac:(lia)) as (x & dN & Ht & _). exact Ht.
Defined.

(** X14. Running the cells a second time in the namespace they left
    changes nothing: the second run succeeds and leaves exactly the same
    namespace. *)
Theorem X14_rerun (N0 r dt T : Qc) (g g' : Namespace) :
  binds g N0 r dt T → integrator g = Ok g' → integrator g' = Ok g'.
Proof.
  intros Hb Hrun.
  destruct (integrator_Ok_inv N0 r dt T g Hb g' Hrun) as [Hdt Hn].
  pose proof (integrator_keeps_parameters N0 r dt T g Hb g' Hrun) as Hb'.
  destruct (integrator_vars N0 r dt T g Hb g' Hrun) as [Hone Htwo].
  pose proof Hb as (HN0 & Hr & Hd & HT).
  destruct (integrator_spec N0 r dt T g HN0 Hr Hd HT Hdt Hn)
    as (g0 & Hrun0 & Hnum & Hvals & Htimes & _).
  rewrite Hrun in Hrun0. injection Hrun0 as <-.
  pose proof Hb' as (HN0' & Hr' & Hd' & HT').
  destruct (integrator_spec N0 r dt T g' HN0' Hr' Hd' HT' Hdt Hn)
    as (g'' & Hrun'' & Hnum'' & Hvals'' & Htimes'' & Hfr'').
  destruct (integrator_vars N0 r dt T g' Hb' g'' Hrun'') as [Hone'' Htwo''].
  rewrite Hrun''. f_equal. apply map_eq. intros name.
  destruct (decide (name = "num_steps")) as [->|H1]; [congruence|].
  destruct (decide (name = "N_t")) as [->|H2]; [congruence|].
  destruct (decide (name = "times")) as [->|H3]; [congruence|].
  destruct (decide (name = "t")) as [->|H4].
  { destruct (decide (step_count T dt = 1%Z)) as [Heq|Hne].
    - by apply Hone''.
    - destruct (Htwo ltac:(lia)) as [-> _].
      by destruct (Htwo'' ltac:(lia)) as [-> _]. }
  destruct (decide (name = "dN")) as [->|H5].
  { destruct (decide (step_count T dt = 1%Z)) as [Heq|Hne].
    - by apply Hone''.
    - destruct (Htwo ltac:(lia)) as [_ ->].
      by destruct (Htwo'' ltac:(lia)) as [_ ->]. }
  apply Hfr''. unfold written. rewrite !not_elem_of_cons.
  repeat split; try done. apply not_elem_of_nil.
Qed.

Lemma X14_rerun_witness :
  let g := parameters 1 1 1 (Qc_of_Z 2) in
  ∃ g' : Namespace,
    binds g 1 1 1 (Qc_of_Z 2) ∧ integrator g = Ok g'
    ∧ integrator g' = Ok g'.
Proof.
  intros g.
  assert (H1 : binds g 1 1 1 (Qc_of_Z 2)) by (repeat split; reflexivity).
  assert (Hok : ∃ g' : Namespace, integrator g = Ok g')
    by (vm_compute; eexists; reflexivity).
  destruct Hok as [g' Hrun]. exists g'.
  split; [exact H1|]. split; [exact Hrun|].
  exact (X14_rerun 1 1 1 (Qc_of_Z 2) g g' H1 Hrun).
Defined.



(** X16. Whenever the cells succeed, [times] and [N_t] are bound to arrays
    of the same length, the positive integer bound to [num_steps]: the
    two arrays can always be plotted against each other. *)
Theorem X16_shapes (N0 r dt T : Qc) (g g' : Namespace) :
  binds g N0 r dt T → integrator g = Ok g' →
  ∃ (n : Z) (ts vs : list Qc),
    g' !! "num_steps" = Some (VInt n)
    ∧ g' !! "times" = Some (VArray ts)
    ∧ g' !! "N_t" = Some (VArray vs)
    ∧ (1 ≤ n)%Z
    ∧ Z.of_nat (length ts) = n
    ∧ length vs = length ts
    ∧ trajectory g' = Ok (zip ts vs).
Proof.
  intros Hb Hrun.
  destruct (integrator_Ok_inv N0 r dt T g Hb g' Hrun) as [Hdt Hn].
  destruct Hb as (HN0 & Hr & Hd & HT).
  destruct (integrator_spec N0 r dt T g HN0 Hr Hd HT Hdt Hn)
    as (g'' & Hrun' & Hnum & Hvals & Htimes & _).
  rewrite Hrun in Hrun'. injection Hrun' as <-.
  eexists _, _, _. split; [exact Hnum|]. split; [exact Htimes|].
  split; [exact Hvals|]. split; [lia|].
  unfold np_scale, np_arange.
  rewrite length_fmap, length_py_range, length_euler_seq.
  split; [lia|]. split; [lia|]. unfold trajectory.
  rewrite (load_array_lookup _ _ _ Htimes). cbn [bind].
  by rewrite (load_array_lookup _ _ _ Hvals).
Qed.

Lemma X16_shapes_witness :
  let g := parameters 1 1 (- 1) (- Qc_of_Z 2) in
  ∃ g' : Namespace,
    binds g 1 1 (- 1) (- Qc_of_Z 2) ∧ integrator g = Ok g'
    ∧ ∃ (n : Z) (ts vs : list Qc),
        g' !! "num_steps" = Some (VInt n)
        ∧ g' !! "times" = Some (VArray ts)
        ∧ g' !! "N_t" = Some (VArray vs)
        ∧ length vs = length ts.
Proof.
  intros g.
  assert (H1 : binds g 1 1 (- 1) (- Qc_of_Z 2))
    by (repeat split; reflexivity).
  assert (Hok : ∃ g' : Namespace, integrator g = Ok g')
    by (vm_compute; eexists; reflexivity).
  destruct Hok as [g' Hrun]. exists g'.
  split; [exact H1|]. split; [exact Hrun|].
  destruct (X16_shapes 1 1 (- 1) (- Qc_of_Z 2) g g' H1 Hrun)
    as (n & ts & vs & Hn & Hts & Hvs & _ & _ & Hlen & _).
  by exists n, ts, vs.
Defined.

(** ** Horizons shorter than a step *)

(** Truncation toward zero sends every number strictly between [-1] and
    [1] to zero. *)
Lemma py_int_small (x : Qc) : - 1 < x → x < 1 → py_int x = 0%Z.
Proof.
  intros Hlo Hhi.
  assert (H1 : ¬ (py_int x + 1 ≤ 0)%Z).
  { rewrite py_int_negative. by apply Qclt_not_le. }
  assert (H2 : (py_int x < 1)%Z).
  { revert Hhi. unfold py_int, Qclt, Qlt. simpl.
    destruct (this x) as [n d]. simpl. intros Hhi.
    pose proof (Z.quot_rem' n (Z.pos d)) as Hqr.
    destruct (Z_lt_le_dec n 0) as [Hn|Hn].
    - pose proof (Z.rem_bound_pos_neg n (Z.pos d) ltac:(lia) ltac:(lia)).
      nia.
    - pose proof (Z.rem_bound_pos_pos n (Z.pos d) ltac:(lia) ltac:(lia)).
      nia. }
  lia.
Qed.

(** X17. When the horizon is shorter than a step, [-1 < T/dt < 1], the
    result is the single initial point, whatever the signs of [T] and
    [dt]: [int] truncates toward zero, so a small quotient of either sign
    counts one step. *)
Theorem X17_single_point (N0 r dt T : Qc) :
  dt ≠ 0 → - 1 < T / dt → T / dt < 1 →
  integrate N0 r dt T = Ok [(0, N0)].
Proof.
  intros Hdt Hlo Hhi.
  assert (Hn : step_count T dt = 1%Z).
  { unfold step_count. by rewrite py_int_small. }
  rewrite integrate_samples by (done || lia). rewrite Hn.
  unfold samples, np_scale, np_arange, py_range.
  change (Z.to_nat (1 - 0)) with 1%nat.
  change (Z.to_nat 1) with 1%nat.
  cbn [seq fmap list_fmap euler_seq zip zip_with].
  change (0 + Z.of_nat 0)%Z with 0%Z.
  do 3 f_equal. rewrite Z2Qc_inj_0. ring.
Qed.

Lemma X17_single_point_witness :
  Qc_of_Z (-2) ≠ 0 ∧ - 1 < 1 / Qc_of_Z (-2) ∧ 1 / Qc_of_Z (-2) < 1
  ∧ integrate (Qc_of_Z 7) 1 (Qc_of_Z (-2)) 1 = Ok [(0, Qc_of_Z 7)].
Proof.
  assert (H1 : Qc_of_Z (-2) ≠ 0).
  { apply Qclt_not_eq. vm_compute. reflexivity. }
  assert (H2 : - 1 < 1 / Qc_of_Z (-2)) by (vm_compute; reflexivity).
  assert (H3 : 1 / Qc_of_Z (-2) < 1) by (vm_compute; reflexivity).
  split; [exact H1|]. split; [exact H2|]. split; [exact H3|].
  exact (X17_single_point (Qc_of_Z 7) 1 (Qc_of_Z (-2)) 1 H1 H2 H3).
Defined.
